(** * useRefFields: a registry of form-field references

    Shallow embedding of the hook [useRefFields] (and of the helper
    [assertIsDefined]) together with the part of the JavaScript object
    model the hook relies on: ordinary objects with own properties,
    object spread, property assignment, [Array.prototype.every],
    [Array.prototype.reduce] and [Array.prototype.includes].

    The hook keeps one mutable object, [fieldsRef.current], that is shared
    between renders and mutated in place by the ref callbacks; the heap
    below makes that sharing explicit. *)

From Stdlib Require Import NArith Ascii String.
From stdpp Require Import base tactics option list sorting strings.

(** ** JavaScript values *)

(** Identity of a DOM element (an [HTMLInputElement], [HTMLTextAreaElement]
    or [HTMLSelectElement]). *)
Definition handle := nat.

(** Address of an ordinary object on the heap. *)
Definition addr := nat.

(** The values that can be stored in, or read from, the objects the hook
    manipulates. *)
Inductive jsval : Type :=
| VUndefined
| VNull
| VStr (s : string)
| VElem (h : handle).

(** What can be thrown: [new Error(message)] by [assertIsDefined], and the
    engine's [TypeError] when a property of [null] or [undefined] is read. *)
Inductive exn : Type :=
| Error (message : string)
| TypeError.

(** [ToBoolean] *)
Definition ToBoolean (v : jsval) : bool :=
  match v with
  | VUndefined | VNull => false
  | VStr s => negb (String.eqb s "")
  | VElem _ => true
  end.

(** [ToString], as applied by [FormData.append] to its second argument.  The
    text for an element depends on its class; that case is never reached by
    the hook, which appends the result of reading [.value]. *)
Definition ToString (v : jsval) : string :=
  match v with
  | VUndefined => "undefined"
  | VNull => "null"
  | VStr s => s
  | VElem _ => "[object HTMLElement]"
  end.

(** ** Ordinary objects *)

(** Own properties of an object, in creation order.  Inherited properties
    ([Object.prototype]) are not modelled: the hook only reads keys it has
    itself created as own properties, for every name of [fields]. *)
Definition Obj := list (string * jsval).

Definition keys (o : Obj) : list string := o.*1.

(** [o[k]] *)
Fixpoint obj_get (o : Obj) (k : string) : jsval :=
  match o with
  | [] => VUndefined
  | (k', v) :: o' => if String.eqb k k' then v else obj_get o' k
  end.

(** [o[k] = v], and the definition of a computed key [[k]: v] in an object
    literal: an existing property keeps its position, a new one is created
    last. *)
Fixpoint obj_set (o : Obj) (k : string) (v : jsval) : Obj :=
  match o with
  | [] => [(k, v)]
  | (k', v') :: o' =>
      if String.eqb k k' then (k', v) :: o' else (k', v') :: obj_set o' k v
  end.

(** *** Enumeration order of own keys *)

Definition digit (c : ascii) : option N :=
  let n := N_of_ascii c in
  if ((48 <=? n) && (n <=? 57))%N then Some (n - 48)%N else None.

Fixpoint digits (s : string) (acc : N) : option N :=
  match s with
  | EmptyString => Some acc
  | String c s' =>
      match digit c with
      | Some d => digits s' (10 * acc + d)%N
      | None => None
      end
  end.

(** A property key is an array index when it is the canonical decimal
    numeral of an integer in the range 0 .. 2^32 - 2. *)
Definition array_index (k : string) : option N :=
  match k with
  | EmptyString => None
  | String "0" EmptyString => Some 0%N
  | String "0" _ => None
  | _ =>
      match digits k 0 with
      | Some n => if (n <=? 4294967294)%N then Some n else None
      | None => None
      end
  end.

Definition is_index (k : string) : bool :=
  match array_index k with Some _ => true | None => false end.

Definition index_of (k : string) : N := default 0%N (array_index k).

Definition index_le (k1 k2 : string) : bool := (index_of k1 <=? index_of k2)%N.

Definition index_leq (k1 k2 : string) : Prop := index_le k1 k2 = true.

Fixpoint insert_key (k : string) (l : list string) : list string :=
  match l with
  | [] => [k]
  | k' :: l' => if index_le k k' then k :: l else k' :: insert_key k l'
  end.

Definition sort_keys (l : list string) : list string := foldr insert_key [] l.

(** Order in which the own keys of an object are enumerated: array indices
    in ascending numeric order, then the other keys in creation order. *)
Definition enum_order (l : list string) : list string :=
  sort_keys (filter (λ k, is_index k = true) l)
    ++ filter (λ k, is_index k = false) l.

(** [Object.keys(o)] *)
Definition ownKeys (o : Obj) : list string := enum_order (keys o).

(** [{...o}]: a new object receiving the own properties of [o] in
    enumeration order. *)
Definition spread (o : Obj) : Obj := (λ k, (k, obj_get o k)) <$> ownKeys o.

(** ** Program state and effects *)

(** The heap of ordinary objects, and the text currently held by every DOM
    element (its [.value]), which the user edits independently of the hook. *)
Record State : Type := mkState {
  heap : list Obj;
  dom : handle → string;
}.

Inductive outcome (A : Type) : Type :=
| Ok (a : A)
| Throw (e : exn).
Arguments Ok {A} a.
Arguments Throw {A} e.

(** Computations that read and write the state and may throw. *)
Definition M (A : Type) : Type := State → outcome A * State.

Definition ret {A} (a : A) : M A := λ s, (Ok a, s).

Definition throw {A} (e : exn) : M A := λ s, (Throw e, s).

Definition bind {A B} (m : M A) (f : A → M B) : M B :=
  λ s, match m s with
       | (Ok a, s') => f a s'
       | (Throw e, s') => (Throw e, s')
       end.

Notation "'let!' x ':=' m 'in' f" := (bind m (λ x, f))
  (at level 10, x name, m at level 100, f at level 200,
   format "'[v' 'let!'  x  :=  m  'in' '/' f ']'").
Notation "'do!' m 'in' f" := (bind m (λ _, f))
  (at level 10, m at level 100, f at level 200,
   format "'[v' 'do!'  m  'in' '/' f ']'").

(** The object stored at an address.  Addresses are only ever produced by
    [alloc], so the default is never used on a reachable state. *)
Definition heap_get (s : State) (a : addr) : Obj := default [] (heap s !! a).

Definition alloc (o : Obj) : M addr :=
  λ s, (Ok (length (heap s)), mkState (heap s ++ [o]) (dom s)).

(** [a[k]] for an object reference [a] *)
Definition get_prop (a : addr) (k : string) : M jsval :=
  λ s, (Ok (obj_get (heap_get s a) k), s).

(** [a[k] = v] *)
Definition set_prop (a : addr) (k : string) (v : jsval) : M unit :=
  λ s, (Ok (), mkState (<[a := obj_set (heap_get s a) k v]> (heap s)) (dom s)).

(** [{...a, [k]: v}] *)
Definition spread_with (a : addr) (k : string) (v : jsval) : M addr :=
  λ s, alloc (obj_set (spread (heap_get s a)) k v) s.

(** [v.value]: throws on [null] and [undefined]; a string primitive has no
    such property. *)
Definition read_value (v : jsval) : M jsval :=
  λ s, match v with
       | VUndefined | VNull => (Throw TypeError, s)
       | VStr _ => (Ok VUndefined, s)
       | VElem h => (Ok (VStr (dom s h)), s)
       end.

(** [v?.value] *)
Definition read_value_opt (v : jsval) : M jsval :=
  match v with
  | VUndefined | VNull => ret VUndefined
  | _ => read_value v
  end.

(** [l.includes(k)] *)
Fixpoint includes (l : list string) (k : string) : bool :=
  match l with
  | [] => false
  | k' :: l' => if String.eqb k' k then true else includes l' k
  end.

(** [l.every(cb)]: stops at the first element for which the callback
    returns a falsy value. *)
Fixpoint every {A} (cb : A → M jsval) (l : list A) : M bool :=
  match l with
  | [] => ret true
  | x :: l' =>
      let! v := cb x in
      if ToBoolean v then every cb l' else ret false
  end.

(** [l.reduce(cb, init)] *)
Fixpoint reduce {A B} (cb : B → A → M B) (l : list A) (init : B) : M B :=
  match l with
  | [] => ret init
  | x :: l' => let! acc := cb init x in reduce cb l' acc
  end.

(** The user types [v] into element [h]. *)
Definition input (h : handle) (v : string) (s : State) : State :=
  mkState (heap s) (λ h', if decide (h' = h) then v else dom s h').

(** ** The hook *)

(** The message of the error thrown by [assertIsDefined]. *)
Definition not_assigned (key : string) : string :=
  "La référence " +:+ key +:+ " n'est pas affectée !".

(** [assertIsDefined(value, key)]; a function without [return] yields
    [undefined]. *)
Definition assertIsDefined (value : jsval) (key : string) : M jsval :=
  match value with
  | VUndefined | VNull => throw (Error (not_assigned key))
  | _ => ret VUndefined
  end.

(** What the closures created by one call of [useRefFields] capture:
    [fields], the object [initialState] built by that call, and the object
    held in [fieldsRef.current].  The hook never reassigns
    [fieldsRef.current]; it only writes properties of the object it holds. *)
Record Hook : Type := mkHook {
  fields : list string;
  initialState : addr;
  current : addr;
}.

(** A FormData: its entry list.  [getFormData] creates it, appends to it and
    returns it. *)
Definition FormData := list (string * string).

(** [useRefFields(fields)].  [prev] is [None] on the first render, where
    [useRef(initialState)] stores [initialState] itself in the new ref, and
    [Some c] on a later render, where [useRef] ignores its argument and gives
    back the ref whose [current] is still [c]. *)
Definition useRefFields (prev : option addr) (fields : list string) : M Hook :=
  let! empty := alloc [] in
  let! initialState :=
    reduce (λ obj name, spread_with obj name VNull) fields empty in
  ret (mkHook fields initialState (default initialState prev)).

(** [setRef(key)(ref)]; React calls the callback with the element when it
    mounts and with [null] when it unmounts. *)
Definition of_ref (ref : option handle) : jsval :=
  match ref with Some h => VElem h | None => VNull end.

Definition setRef (hk : Hook) (key : string) (ref : option handle) : M unit :=
  if includes (fields hk) key then set_prop (current hk) key (of_ref ref)
  else ret ().

Definition getRef (hk : Hook) (key : string) : M jsval :=
  let! v := get_prop (current hk) key in
  do! assertIsDefined v key in
  let! v' := get_prop (current hk) key in
  read_value v'.

Definition getAllRef (hk : Hook) : M addr :=
  reduce
    (λ obj key,
       let! v := get_prop (current hk) key in
       let! x := read_value_opt v in
       spread_with obj key x)
    (fields hk) (initialState hk).

Definition getFormData (hk : Hook) : M FormData :=
  do! every
        (λ key, let! v := get_prop (current hk) key in assertIsDefined v key)
        (fields hk) in
  reduce
    (λ form key,
       let! v := get_prop (current hk) key in
       let! x := read_value v in
       ret (form ++ [(key, ToString x)])%list)
    (fields hk) [].

(** The handles mapping of the registry: the object in [fieldsRef.current]. *)
Definition handles (hk : Hook) (s : State) : Obj := heap_get s (current hk).

(** A later state that differs only by newly allocated objects. *)
Definition extends (s s' : State) : Prop :=
  dom s' = dom s ∧ ∃ fresh, heap s' = (heap s ++ fresh)%list.

(** [o] after the literals [{...o, [k]: f k}] for the successive [k] of [l] *)
Definition build (f : string → jsval) (l : list string) (o : Obj) : Obj :=
  foldl (λ o k, obj_set (spread o) k (f k)) o l.

(** The properties [initialState] is created with. *)
Definition initial_obj (l : list string) : Obj := build (λ _, VNull) l [].

(** [v?.value], as a function of the text held by the elements *)
Definition value_opt (d : handle → string) (v : jsval) : jsval :=
  match v with
  | VElem h => VStr (d h)
  | _ => VUndefined
  end.

(** The entry [getFormData] appends for a name. *)
Definition entry (hk : Hook) (s : State) (k : string) : string * string :=
  (k, ToString (value_opt (dom s) (obj_get (handles hk s) k))).

(** ** Reachable states *)

(** What holds of a closure [hk] and a state it can meet. *)
Record Inv (hk : Hook) (s : State) : Prop := mkInv {
  inv_current : current hk < length (heap s);
  inv_initial : initialState hk < length (heap s);
  inv_keys : keys (handles hk s) = keys (initial_obj (fields hk));
  inv_refs : ∀ k, k ∈ fields hk → ∃ ref, obj_get (handles hk s) k = of_ref ref;
  inv_initialState :
    initialState hk = current hk
    ∨ (initialState hk ≠ current hk
       ∧ heap_get s (initialState hk) = initial_obj (fields hk));
}.

(** The calls a caller can make on the actions of a closure. *)
Inductive call : Type :=
| SetRef (key : string) (ref : option handle)
| GetRef (key : string)
| GetAllRef
| GetFormData.

(** The state a call leaves behind, whether it returns or throws. *)
Definition perform (hk : Hook) (c : call) (s : State) : State :=
  match c with
  | SetRef key ref => (setRef hk key ref s).2
  | GetRef key => (getRef hk key s).2
  | GetAllRef => (getAllRef hk s).2
  | GetFormData => (getFormData hk s).2
  end.

(** [reachable hk s]: the closure [hk] was created by some render of a
    component using the hook, and [s] is a state reached afterwards through
    further renders of that component, calls of the actions of any closure of
    that component, edits of the elements by the user, and allocations by
    other code. *)
Inductive reachable : Hook → State → Prop :=
| reach_mount l s0 hk s :
    useRefFields None l s0 = (Ok hk, s) → reachable hk s
| reach_render hk s hk' s' :
    reachable hk s →
    useRefFields (Some (current hk)) (fields hk) s = (Ok hk', s') →
    reachable hk' s'
| reach_render_old hk s hk' s' :
    reachable hk s →
    useRefFields (Some (current hk)) (fields hk) s = (Ok hk', s') →
    reachable hk s'
| reach_call hk hk' c s :
    reachable hk s → reachable hk' s →
    current hk' = current hk → fields hk' = fields hk →
    reachable hk (perform hk' c s)
| reach_input hk s h v :
    reachable hk s → reachable hk (input h v s)
| reach_alloc hk s o :
    reachable hk s → reachable hk (alloc o s).2.

(** The keys of the handles mapping are exactly the names of [fields], each
    once. *)
Definition exact_keys (hk : Hook) (s : State) : Prop :=
  NoDup (keys (handles hk s)) ∧ ∀ k, k ∈ keys (handles hk s) ↔ k ∈ fields hk.

(** The calls that only read. *)
Definition reads (c : call) : bool :=
  match c with
  | SetRef _ _ => false
  | GetRef _ | GetAllRef | GetFormData => true
  end.

(** ** A form with three fields *)

Definition demo_fields : list string := ["name"; "desc"; "select"].

Definition demo_text (h : handle) : string :=
  match h with
  | 0 => "Fire"
  | 1 => "A deck"
  | _ => "rouge"
  end.

Definition demo_start : State := mkState [] demo_text.

Definition demo_hook : Hook := mkHook demo_fields 3 3.

Definition demo_state : State := (useRefFields None demo_fields demo_start).2.

(** All three fields mounted. *)
Definition demo_mounted : State :=
  (setRef demo_hook "select" (Some 2)
     (setRef demo_hook "desc" (Some 1)
        (setRef demo_hook "name" (Some 0) demo_state).2).2).2.

(** The form mounted, seen from the closures of a second render. *)
Definition demo_hook_again : Hook := mkHook demo_fields 7 3.

Definition demo_rendered_again : State :=
  (useRefFields (Some 3) demo_fields demo_mounted).2.

(** The element each field of the example form is mounted with. *)
Definition demo_handle (k : string) : handle :=
  if String.eqb k "name" then 0 else if String.eqb k "desc" then 1 else 2.

(** ** A group of elements under one name *)

(** [MyInputRadio] renders one input per item of [data], each with
    [ref={setRef(name)}]; [register_all] runs these callbacks with the
    elements of the group, in the order of [data]. *)
Fixpoint register_all (hk : Hook) (name : string) (elems : list handle)
  : M unit :=
  match elems with
  | [] => ret ()
  | e :: es => do! setRef hk name (Some e) in register_all hk name es
  end.

(** ** Facts about objects *)

Lemma eqb_true (k k' : string) : String.eqb k k' = true ↔ k = k'.
Proof. apply String.eqb_eq. Qed.

Lemma eqb_false (k k' : string) : String.eqb k k' = false ↔ k ≠ k'.
Proof. apply String.eqb_neq. Qed.

Ltac case_eqb k k' :=
  let E := fresh "E" in
  destruct (String.eqb k k') eqn:E;
  [apply eqb_true in E; try subst | apply eqb_false in E].

Lemma includes_elem_of (l : list string) (k : string) :
  includes l k = true ↔ k ∈ l.
Proof.
  induction l as [|k' l IH]; simpl.
  - split; [done | by intros ?%elem_of_nil].
  - case_eqb k' k.
    + split; [intros _; left | done].
    + rewrite IH, elem_of_cons. intuition (subst; congruence || eauto).
Qed.

Lemma obj_get_set_eq (o : Obj) k v : obj_get (obj_set o k v) k = v.
Proof.
  induction o as [|[k' v'] o IH]; simpl.
  - by rewrite String.eqb_refl.
  - case_eqb k k'; simpl.
    + by rewrite String.eqb_refl.
    + by apply eqb_false in E as ->.
Qed.

Lemma obj_get_set_ne (o : Obj) k k' v :
  k ≠ k' → obj_get (obj_set o k v) k' = obj_get o k'.
Proof.
  intros Hne. induction o as [|[k1 v1] o IH]; simpl.
  - apply not_eq_sym in Hne. by apply eqb_false in Hne as ->.
  - case_eqb k k1; simpl.
    + apply not_eq_sym in Hne. by apply eqb_false in Hne as ->.
    + by rewrite IH.
Qed.

Lemma obj_set_set (o : Obj) k v1 v2 :
  obj_set (obj_set o k v1) k v2 = obj_set o k v2.
Proof.
  induction o as [|[k' v'] o IH]; simpl.
  - by rewrite String.eqb_refl.
  - case_eqb k k'; simpl.
    + by rewrite String.eqb_refl.
    + apply eqb_false in E as ->. by rewrite IH.
Qed.

Lemma obj_get_not_key (o : Obj) k : k ∉ keys o → obj_get o k = VUndefined.
Proof.
  induction o as [|[k' v'] o IH]; simpl; [done|].
  rewrite not_elem_of_cons. intros [Hne Hnin].
  apply eqb_false in Hne as ->. by apply IH.
Qed.

Lemma keys_obj_set_old (o : Obj) k v : k ∈ keys o → keys (obj_set o k v) = keys o.
Proof.
  induction o as [|[k' v'] o IH]; simpl.
  - by intros ?%elem_of_nil.
  - case_eqb k k'; [done|]. simpl.
    rewrite elem_of_cons. intros [?|Hin]; [done|]. f_equal. by apply IH.
Qed.

Lemma keys_obj_set_new (o : Obj) k v :
  k ∉ keys o → keys (obj_set o k v) = (keys o ++ [k])%list.
Proof.
  induction o as [|[k' v'] o IH]; simpl; [done|].
  rewrite not_elem_of_cons. intros [Hne Hnin].
  apply eqb_false in Hne as ->. simpl. f_equal. by apply IH.
Qed.

Lemma elem_of_keys_obj_set (o : Obj) k v k' :
  k' ∈ keys (obj_set o k v) ↔ k' = k ∨ k' ∈ keys o.
Proof.
  destruct (decide (k ∈ keys o)) as [Hin|Hnin].
  - rewrite keys_obj_set_old by done. intuition (subst; congruence || eauto).
  - rewrite keys_obj_set_new by done. rewrite elem_of_app, list_elem_of_singleton.
    intuition (subst; congruence || eauto).
Qed.

Lemma NoDup_keys_obj_set (o : Obj) k v :
  NoDup (keys o) → NoDup (keys (obj_set o k v)).
Proof.
  intros Hnd. destruct (decide (k ∈ keys o)) as [Hin|Hnin].
  - by rewrite keys_obj_set_old.
  - rewrite keys_obj_set_new by done. apply NoDup_app. split_and!; [done| |].
    + intros x Hx ->%list_elem_of_singleton. done.
    + apply NoDup_singleton.
Qed.

Lemma obj_get_tabulate (f : string → jsval) (l : list string) k :
  obj_get ((λ k, (k, f k)) <$> l) k = if decide (k ∈ l) then f k else VUndefined.
Proof.
  induction l as [|k' l IH].
  - destruct (decide (k ∈ [])) as [H|]; [by apply elem_of_nil in H | done].
  - cbn [fmap list_fmap obj_get]. case_eqb k k'.
    + by rewrite decide_True by left.
    + rewrite IH. destruct (decide (k ∈ l)) as [Hin|Hnin].
      * by rewrite decide_True by (by right).
      * rewrite decide_False; [done|]. by intros [?|?]%elem_of_cons.
Qed.

(** ** Facts about the enumeration order *)

Lemma index_le_total k1 k2 : index_le k1 k2 = false → index_le k2 k1 = true.
Proof. unfold index_le. rewrite N.leb_gt, N.leb_le. lia. Qed.

Lemma insert_key_perm k l : insert_key k l ≡ₚ k :: l.
Proof.
  induction l as [|k' l IH]; simpl; [done|].
  destruct (index_le k k'); [done|]. rewrite IH. apply Permutation_swap.
Qed.

Lemma sort_keys_perm l : sort_keys l ≡ₚ l.
Proof.
  induction l as [|k l IH]; simpl; [done|].
  by rewrite insert_key_perm, IH.
Qed.

Lemma insert_key_sorted k l :
  Sorted index_leq l → Sorted index_leq (insert_key k l).
Proof.
  induction 1 as [|k' l Hs IH Hhd]; simpl.
  - by repeat constructor.
  - destruct (index_le k k') eqn:E.
    + constructor; [by constructor | by constructor].
    + constructor; [done|]. apply index_le_total in E.
      destruct Hhd as [|k2 l Hk2]; simpl.
      * by constructor.
      * by destruct (index_le k k2); constructor.
Qed.

Lemma sort_keys_sorted l : Sorted index_leq (sort_keys l).
Proof.
  induction l as [|k l IH]; simpl; [constructor | by apply insert_key_sorted].
Qed.

Lemma sort_keys_id l : Sorted index_leq l → sort_keys l = l.
Proof.
  induction 1 as [|k l Hs IH Hhd]; simpl; [done|].
  rewrite IH. destruct Hhd as [|k' l Hk]; simpl; [done|]. by rewrite Hk.
Qed.

Lemma filter_all {A} (P : A → Prop) `{∀ x, Decision (P x)} (l : list A) :
  (∀ x, x ∈ l → P x) → filter P l = l.
Proof.
  induction l as [|x l IH]; intros Hall; [done|].
  rewrite filter_cons_True by (apply Hall; left).
  f_equal. apply IH. intros y Hy. apply Hall. by right.
Qed.

Lemma filter_none {A} (P : A → Prop) `{∀ x, Decision (P x)} (l : list A) :
  (∀ x, x ∈ l → ¬ P x) → filter P l = [].
Proof.
  induction l as [|x l IH]; intros Hall; [done|].
  rewrite filter_cons_False by (apply Hall; left).
  apply IH. intros y Hy. apply Hall. by right.
Qed.

Lemma filter_index_split l :
  (filter (λ k, is_index k = true) l ++ filter (λ k, is_index k = false) l)%list
    ≡ₚ l.
Proof.
  induction l as [|k l IH]; [done|].
  destruct (is_index k) eqn:E.
  - rewrite filter_cons_True, filter_cons_False by (by rewrite E).
    simpl. by rewrite IH.
  - rewrite filter_cons_False, filter_cons_True by (by rewrite E).
    rewrite <- Permutation_middle. by rewrite IH.
Qed.

Lemma enum_order_perm l : enum_order l ≡ₚ l.
Proof. unfold enum_order. rewrite sort_keys_perm. apply filter_index_split. Qed.

Lemma elem_of_enum_order l k : k ∈ enum_order l ↔ k ∈ l.
Proof. by rewrite enum_order_perm. Qed.

Lemma filter_index_enum_order l :
  filter (λ k, is_index k = true) (enum_order l)
  = sort_keys (filter (λ k, is_index k = true) l).
Proof.
  unfold enum_order. rewrite filter_app.
  rewrite (filter_none _ (filter _ l)); [rewrite app_nil_r|].
  - apply filter_all. intros k. rewrite sort_keys_perm, list_elem_of_filter.
    intuition (subst; congruence || eauto).
  - intros k. rewrite list_elem_of_filter. intros [-> _]. done.
Qed.

Lemma filter_other_enum_order l :
  filter (λ k, is_index k = false) (enum_order l)
  = filter (λ k, is_index k = false) l.
Proof.
  unfold enum_order. rewrite filter_app.
  rewrite (filter_none _ (sort_keys _)); simpl.
  - apply filter_all. intros k. rewrite list_elem_of_filter. intuition (subst; congruence || eauto).
  - intros k. rewrite sort_keys_perm, list_elem_of_filter. intros [-> _]. done.
Qed.

(** Enumerating twice gives the same order. *)
Lemma enum_order_idemp l : enum_order (enum_order l) = enum_order l.
Proof.
  unfold enum_order at 1.
  rewrite filter_index_enum_order, filter_other_enum_order.
  by rewrite sort_keys_id by apply sort_keys_sorted.
Qed.

(** Without array indices among the keys, enumeration follows creation
    order. *)
Lemma enum_order_no_index l :
  (∀ k, k ∈ l → is_index k = false) → enum_order l = l.
Proof.
  intros Hno. unfold enum_order.
  rewrite filter_none, filter_all; [done | done |].
  intros k Hk. by rewrite Hno.
Qed.

Lemma keys_spread o : keys (spread o) = ownKeys o.
Proof.
  unfold spread, keys. rewrite <- list_fmap_compose. apply list_fmap_id.
Qed.

Lemma obj_get_spread o k : obj_get (spread o) k = obj_get o k.
Proof.
  unfold spread. rewrite obj_get_tabulate.
  destruct (decide (k ∈ ownKeys o)) as [|Hnin]; [done|].
  symmetry. apply obj_get_not_key.
  by rewrite <- elem_of_enum_order.
Qed.

Lemma NoDup_keys_spread o : NoDup (keys o) → NoDup (keys (spread o)).
Proof. rewrite keys_spread. unfold ownKeys. by rewrite enum_order_perm. Qed.

(** ** Facts about objects built by successive literals *)

Lemma build_cons f k l o :
  build f (k :: l) o = build f l (obj_set (spread o) k (f k)).
Proof. done. Qed.

Lemma elem_of_keys_build f l o k :
  k ∈ keys (build f l o) ↔ k ∈ keys o ∨ k ∈ l.
Proof.
  revert o. induction l as [|k' l IH]; intros o.
  - simpl. rewrite elem_of_nil. intuition (subst; congruence || eauto).
  - rewrite build_cons, IH, elem_of_keys_obj_set, keys_spread.
    unfold ownKeys. rewrite elem_of_enum_order, elem_of_cons. intuition (subst; congruence || eauto).
Qed.

Lemma NoDup_keys_build f l o : NoDup (keys o) → NoDup (keys (build f l o)).
Proof.
  revert o. induction l as [|k l IH]; intros o Hnd; [done|].
  rewrite build_cons. by apply IH, NoDup_keys_obj_set, NoDup_keys_spread.
Qed.

Lemma obj_get_build_other f l o k :
  k ∉ l → obj_get (build f l o) k = obj_get o k.
Proof.
  revert o. induction l as [|k' l IH]; intros o; [done|].
  rewrite not_elem_of_cons. intros [Hne Hnin].
  rewrite build_cons, IH by done.
  by rewrite obj_get_set_ne, obj_get_spread.
Qed.

(** Every key of [l] ends up holding [f k], whatever [o] held. *)
Lemma obj_get_build f l o k : k ∈ l → obj_get (build f l o) k = f k.
Proof.
  revert o. induction l as [|k' l IH]; intros o.
  - by intros ?%elem_of_nil.
  - intros Hin. rewrite build_cons.
    destruct (decide (k ∈ l)) as [|Hnin]; [by apply IH|].
    apply elem_of_cons in Hin as [->|?]; [|done].
    by rewrite obj_get_build_other, obj_get_set_eq.
Qed.

(** When [o] already has every key of [l], no property is created and the
    creation order of the result is the enumeration order of [o]. *)
Lemma keys_build_old f l o :
  (∀ k, k ∈ l → k ∈ keys o) →
  keys (build f l o) = if l is [] then keys o else enum_order (keys o).
Proof.
  revert o. induction l as [|k l IH]; intros o Hall; [done|].
  rewrite build_cons, IH.
  - rewrite keys_obj_set_old.
    + rewrite keys_spread. unfold ownKeys.
      destruct l; [done | apply enum_order_idemp].
    + rewrite keys_spread. apply elem_of_enum_order, Hall. by left.
  - intros k' Hk'. apply elem_of_keys_obj_set. right.
    rewrite keys_spread. apply elem_of_enum_order, Hall. by right.
Qed.

Lemma ownKeys_build_old f l o :
  (∀ k, k ∈ l → k ∈ keys o) → ownKeys (build f l o) = ownKeys o.
Proof.
  intros Hall. unfold ownKeys. rewrite keys_build_old by done.
  destruct l; [done | apply enum_order_idemp].
Qed.

(** The keys that are not array indices keep the order of [l]. *)
Lemma filter_other_keys_build f l o :
  NoDup l → (∀ k, k ∈ l → k ∉ keys o) →
  filter (λ k, is_index k = false) (keys (build f l o))
  = (filter (λ k, is_index k = false) (keys o)
      ++ filter (λ k, is_index k = false) l)%list.
Proof.
  revert o. induction l as [|k l IH]; intros o Hnd Hfresh.
  - by rewrite app_nil_r.
  - apply NoDup_cons in Hnd as [Hk Hnd]. rewrite build_cons, IH; [|done|].
    + rewrite keys_obj_set_new.
      * rewrite keys_spread. unfold ownKeys.
        rewrite filter_app, filter_other_enum_order, <- app_assoc.
        f_equal. by rewrite <- filter_app.
      * rewrite keys_spread. unfold ownKeys. rewrite elem_of_enum_order.
        apply Hfresh. by left.
    + intros k' Hk'. rewrite elem_of_keys_obj_set, keys_spread.
      unfold ownKeys. rewrite elem_of_enum_order.
      intros [->|Hin]; [done|]. eapply Hfresh; [|done]. by right.
Qed.

Lemma keys_build_perm f l o :
  NoDup l → (∀ k, k ∈ l → k ∉ keys o) →
  keys (build f l o) ≡ₚ (keys o ++ l)%list.
Proof.
  revert o. induction l as [|k l IH]; intros o Hnd Hfresh.
  - by rewrite app_nil_r.
  - apply NoDup_cons in Hnd as [Hk Hnd]. rewrite build_cons, IH; [|done|].
    + rewrite keys_obj_set_new.
      * rewrite keys_spread. unfold ownKeys.
        by rewrite enum_order_perm, <- app_assoc.
      * rewrite keys_spread. unfold ownKeys. rewrite elem_of_enum_order.
        apply Hfresh. by left.
    + intros k' Hk'. rewrite elem_of_keys_obj_set, keys_spread.
      unfold ownKeys. rewrite elem_of_enum_order.
      intros [->|Hin]; [done|]. eapply Hfresh; [|done]. by right.
Qed.

(** *** The object [initialState] *)

Lemma elem_of_keys_initial_obj l k : k ∈ keys (initial_obj l) ↔ k ∈ l.
Proof.
  unfold initial_obj. rewrite elem_of_keys_build. simpl.
  rewrite elem_of_nil. intuition (subst; congruence || eauto).
Qed.

Lemma NoDup_keys_initial_obj l : NoDup (keys (initial_obj l)).
Proof. apply NoDup_keys_build. constructor. Qed.

Lemma obj_get_initial_obj l k : k ∈ l → obj_get (initial_obj l) k = VNull.
Proof. intros Hin. unfold initial_obj. by rewrite obj_get_build. Qed.

Lemma keys_initial_obj_perm l : NoDup l → keys (initial_obj l) ≡ₚ l.
Proof.
  intros Hnd. unfold initial_obj. rewrite keys_build_perm; [done..|].
  intros k _. simpl. apply not_elem_of_nil.
Qed.

Lemma filter_other_keys_initial_obj l :
  NoDup l →
  filter (λ k, is_index k = false) (keys (initial_obj l))
  = filter (λ k, is_index k = false) l.
Proof.
  intros Hnd. unfold initial_obj. rewrite filter_other_keys_build; [done..|].
  intros k _. simpl. apply not_elem_of_nil.
Qed.

(** ** Facts about the heap *)

Lemma extends_refl s : extends s s.
Proof. split; [done|]. exists []. by rewrite app_nil_r. Qed.

Lemma extends_trans s1 s2 s3 : extends s1 s2 → extends s2 s3 → extends s1 s3.
Proof.
  intros [Hd1 [f1 H1]] [Hd2 [f2 H2]]. split; [congruence|].
  exists (f1 ++ f2)%list. by rewrite H2, H1, <- app_assoc.
Qed.

Lemma extends_length s s' : extends s s' → length (heap s) ≤ length (heap s').
Proof. intros [_ [fresh ->]]. rewrite length_app. lia. Qed.

Lemma heap_get_extends s s' a :
  extends s s' → a < length (heap s) → heap_get s' a = heap_get s a.
Proof.
  intros [_ [fresh Hh]] Ha. unfold heap_get. by rewrite Hh, lookup_app_l.
Qed.

Lemma alloc_run o s :
  ∃ s', alloc o s = (Ok (length (heap s)), s') ∧ extends s s'
        ∧ heap_get s' (length (heap s)) = o
        ∧ length (heap s') = S (length (heap s)).
Proof.
  eexists. split; [done|]. split_and!.
  - split; [done|]. by exists [o].
  - unfold heap_get. simpl. by rewrite list_lookup_middle.
  - simpl. rewrite length_app. simpl. lia.
Qed.

Lemma set_prop_run a k v s :
  a < length (heap s) →
  ∃ s', set_prop a k v s = (Ok (), s')
        ∧ dom s' = dom s
        ∧ length (heap s') = length (heap s)
        ∧ heap_get s' a = obj_set (heap_get s a) k v
        ∧ ∀ a', a' ≠ a → heap_get s' a' = heap_get s a'.
Proof.
  intros Ha. eexists. split; [done|]. unfold heap_get. simpl. split_and!.
  - done.
  - apply length_insert.
  - by rewrite list_lookup_insert_eq.
  - intros a' Hne. by rewrite list_lookup_insert_ne.
Qed.

(** [reduce] with a callback that evaluates the literal [{...obj, [key]: f key}]:
    it never throws, only allocates, and ends on the object [build] describes. *)
Lemma reduce_spread_run (cb : addr → string → M addr) f s0 l :
  (∀ obj key s', extends s0 s' → cb obj key s' = spread_with obj key (f key) s') →
  ∀ a s, extends s0 s → a < length (heap s) →
  ∃ a' s', reduce cb l a s = (Ok a', s')
           ∧ extends s s'
           ∧ a ≤ a' < length (heap s')
           ∧ heap_get s' a' = build f l (heap_get s a).
Proof.
  intros Hcb. induction l as [|k l IH]; intros a s Hext Ha.
  - exists a, s. split_and!; [done | apply extends_refl | lia | done | done].
  - simpl. unfold bind. rewrite Hcb by done. unfold spread_with.
    destruct (alloc_run (obj_set (spread (heap_get s a)) k (f k)) s)
      as (s1 & -> & Hext1 & Hget1 & Hlen1).
    destruct (IH (length (heap s)) s1) as (a' & s' & -> & Hext' & Ha' & Hget').
    { by eapply extends_trans. }
    { lia. }
    exists a', s'. split_and!; [done | by eapply extends_trans | lia | lia |].
    by rewrite Hget', Hget1.
Qed.

(** ** Running the hook *)

Lemma useRefFields_run prev l s :
  ∃ a s', useRefFields prev l s = (Ok (mkHook l a (default a prev)), s')
          ∧ extends s s'
          ∧ length (heap s) ≤ a < length (heap s')
          ∧ heap_get s' a = initial_obj l.
Proof.
  unfold useRefFields, bind.
  destruct (alloc_run [] s) as (s1 & -> & Hext1 & Hget1 & Hlen1).
  destruct (reduce_spread_run (λ obj name, spread_with obj name VNull)
              (λ _, VNull) s1 l) with (a := length (heap s)) (s := s1)
    as (a & s' & -> & Hext' & Ha & Hget'); [done | apply extends_refl | lia |].
  exists a, s'. split_and!; [done | by eapply extends_trans | lia | lia |].
  by rewrite Hget', Hget1.
Qed.

Lemma setRef_run hk key ref s :
  current hk < length (heap s) →
  ∃ s', setRef hk key ref s = (Ok (), s')
        ∧ dom s' = dom s
        ∧ length (heap s') = length (heap s)
        ∧ handles hk s' =
            (if includes (fields hk) key
             then obj_set (handles hk s) key (of_ref ref) else handles hk s)
        ∧ ∀ a, a ≠ current hk → heap_get s' a = heap_get s a.
Proof.
  intros Hc. unfold setRef, handles. destruct (includes (fields hk) key).
  - destruct (set_prop_run (current hk) key (of_ref ref) s Hc)
      as (s' & ? & ? & ? & ? & ?). by exists s'.
  - by exists s.
Qed.

Lemma getRef_run hk key s :
  getRef hk key s =
    (match obj_get (handles hk s) key with
     | VUndefined | VNull => Throw (Error (not_assigned key))
     | VStr _ => Ok VUndefined
     | VElem h => Ok (VStr (dom s h))
     end, s).
Proof.
  unfold getRef, bind, get_prop, handles.
  destruct (obj_get (heap_get s (current hk)) key) eqn:E; simpl;
    by rewrite ?E.
Qed.

Lemma getAllRef_run hk s :
  current hk < length (heap s) → initialState hk < length (heap s) →
  ∃ a s', getAllRef hk s = (Ok a, s')
          ∧ extends s s'
          ∧ a < length (heap s')
          ∧ heap_get s' a =
              build (λ k, value_opt (dom s) (obj_get (handles hk s) k))
                (fields hk) (heap_get s (initialState hk)).
Proof.
  intros Hc Hi. unfold getAllRef.
  edestruct (reduce_spread_run
               (λ obj key,
                  let! v := get_prop (current hk) key in
                  let! x := read_value_opt v in
                  spread_with obj key x)
               (λ k, value_opt (dom s) (obj_get (handles hk s) k)) s (fields hk))
    with (a := initialState hk) (s := s)
    as (a & s' & Hrun & Hext & Ha & Hget); [|apply extends_refl|done|].
  - intros obj key s' Hext. unfold bind, get_prop, handles.
    rewrite (heap_get_extends s s') by done. destruct Hext as [Hd _].
    destruct (obj_get (heap_get s (current hk)) key); simpl;
      by rewrite ?Hd.
  - exists a, s'. split_and!; [done | done | lia | done].
Qed.

(** The check [fields.every(...)] of [getFormData] only ever looks at the
    first name: on success the callback returns [undefined], which [every]
    takes as "stop". *)
Lemma every_assert_run c l s :
  every (λ key, let! v := get_prop c key in assertIsDefined v key) l s =
    (match l with
     | [] => Ok true
     | k :: _ =>
         match obj_get (heap_get s c) k with
         | VUndefined | VNull => Throw (Error (not_assigned k))
         | _ => Ok false
         end
     end, s).
Proof.
  destruct l as [|k l]; [done|]. simpl. unfold bind, get_prop.
  by destruct (obj_get (heap_get s c) k).
Qed.

Lemma reduce_append_ok hk s l form :
  (∀ k, k ∈ l → ∃ h, obj_get (handles hk s) k = VElem h) →
  reduce
    (λ form key,
       let! v := get_prop (current hk) key in
       let! x := read_value v in
       ret (form ++ [(key, ToString x)])%list)
    l form s
  = (Ok (form ++ (entry hk s <$> l))%list, s).
Proof.
  revert form. induction l as [|k l IH]; intros form Hall; simpl.
  - by rewrite app_nil_r.
  - destruct (Hall k) as [h Hh]; [by left|].
    unfold bind at 1. unfold bind at 1. unfold get_prop at 1.
    fold (handles hk s). rewrite Hh. simpl. rewrite IH.
    + unfold entry at 2. rewrite Hh. simpl. by rewrite <- app_assoc.
    + intros k' Hk'. apply Hall. by right.
Qed.

Lemma reduce_append_null hk s l form :
  (∀ k, k ∈ l → ∃ ref, obj_get (handles hk s) k = of_ref ref) →
  (∃ k, k ∈ l ∧ obj_get (handles hk s) k = VNull) →
  reduce
    (λ form key,
       let! v := get_prop (current hk) key in
       let! x := read_value v in
       ret (form ++ [(key, ToString x)])%list)
    l form s
  = (Throw TypeError, s).
Proof.
  revert form. induction l as [|k l IH]; intros form Hall (k0 & Hin & Hk0).
  - by apply elem_of_nil in Hin.
  - simpl. unfold bind at 1. unfold bind at 1. unfold get_prop at 1.
    fold (handles hk s).
    destruct (Hall k (list_elem_of_here _ _)) as [[h|] Hh]; simpl in Hh.
    + rewrite Hh. simpl. apply IH.
      * intros k' Hk'. apply Hall. by right.
      * exists k0. split; [|done].
        apply elem_of_cons in Hin as [->|?]; [congruence | done].
    + by rewrite Hh.
Qed.

Lemma getFormData_state hk s : (getFormData hk s).2 = s.
Proof.
  unfold getFormData. unfold bind at 1. rewrite every_assert_run.
  assert (∀ l form,
    (reduce
       (λ form key,
          let! v := get_prop (current hk) key in
          let! x := read_value v in
          ret (form ++ [(key, ToString x)])%list)
       l form s).2 = s) as Hred.
  { induction l as [|k l IH]; intros form; [done|]. simpl.
    unfold bind at 1. unfold bind at 1. unfold get_prop at 1.
    destruct (obj_get (heap_get s (current hk)) k); simpl; try done; apply IH. }
  destruct (fields hk) as [|k l]; [done|].
  destruct (obj_get (heap_get s (current hk)) k); try done; apply Hred.
Qed.

(** ** The invariant of reachable states *)

Lemma Inv_extends hk s s' : Inv hk s → extends s s' → Inv hk s'.
Proof.
  intros [Hc Hi Hk Hr HI] Hext. pose proof (extends_length _ _ Hext).
  assert (handles hk s' = handles hk s) as Hh by by apply heap_get_extends.
  split; rewrite ?Hh; try done; try lia.
  destruct HI as [?|[? ?]]; [by left | right]. split; [done|].
  by rewrite (heap_get_extends s s').
Qed.

Lemma Inv_mount l s0 hk s : useRefFields None l s0 = (Ok hk, s) → Inv hk s.
Proof.
  destruct (useRefFields_run None l s0) as (a & s' & -> & Hext & Ha & Hget).
  intros [= <- <-]. split; unfold handles; simpl; rewrite ?Hget;
    [lia | lia | done | | by left].
  intros k Hk. exists None. by apply obj_get_initial_obj.
Qed.

Lemma Inv_render hk s hk' s' :
  Inv hk s →
  useRefFields (Some (current hk)) (fields hk) s = (Ok hk', s') →
  Inv hk' s' ∧ Inv hk s' ∧ current hk' = current hk ∧ fields hk' = fields hk.
Proof.
  intros HI.
  destruct (useRefFields_run (Some (current hk)) (fields hk) s)
    as (a & s1 & -> & Hext & Ha & Hget).
  intros [= <- <-]. pose proof (Inv_extends _ _ _ HI Hext) as HI'.
  split_and!; [|done..].
  destruct HI' as [Hc Hi Hk Hr _]. split; simpl; try done; try lia.
  right. split; [|done]. destruct HI. lia.
Qed.

Lemma Inv_setRef hk hk' key ref s :
  Inv hk s → current hk' = current hk → fields hk' = fields hk →
  Inv hk (setRef hk' key ref s).2.
Proof.
  intros [Hc Hi Hk Hr HI] Hcur Hfld.
  destruct (setRef_run hk' key ref s) as (s' & -> & Hd & Hlen & Hh & Hother);
    [by rewrite Hcur|].
  simpl. unfold handles in *. rewrite Hcur, Hfld in *.
  split; unfold handles; rewrite ?Hlen; try done.
  - rewrite Hh. destruct (includes (fields hk) key) eqn:E; [|done].
    rewrite keys_obj_set_old; [done|].
    rewrite Hk. by apply elem_of_keys_initial_obj, includes_elem_of.
  - intros k Hin. rewrite Hh. destruct (includes (fields hk) key); [|by apply Hr].
    destruct (decide (key = k)) as [->|Hne].
    + exists ref. apply obj_get_set_eq.
    + rewrite obj_get_set_ne by done. by apply Hr.
  - destruct HI as [?|[Hne Hget]]; [by left | right]. split; [done|].
    by rewrite Hother.
Qed.

Lemma Inv_perform hk hk' c s :
  Inv hk s → Inv hk' s → current hk' = current hk → fields hk' = fields hk →
  Inv hk (perform hk' c s).
Proof.
  intros HI HI' Hcur Hfld. destruct c as [key ref|key| |]; unfold perform.
  - by apply Inv_setRef.
  - rewrite getRef_run. exact HI.
  - destruct (getAllRef_run hk' s) as (a & s' & -> & Hext & _);
      [apply HI'..|]. by eapply Inv_extends.
  - by rewrite getFormData_state.
Qed.

Lemma reachable_Inv hk s : reachable hk s → Inv hk s.
Proof.
  induction 1 as [l s0 hk s Hrun|hk s hk' s' _ IH Hrun|hk s hk' s' _ IH Hrun
                 |hk hk' c s _ IH _ IH' Hcur Hfld|hk s h v _ IH|hk s o _ IH].
  - by eapply Inv_mount.
  - by destruct (Inv_render _ _ _ _ IH Hrun) as (? & _).
  - by destruct (Inv_render _ _ _ _ IH Hrun) as (_ & ? & _).
  - by apply Inv_perform.
  - destruct IH. by split.
  - destruct (alloc_run o s) as (s' & -> & Hext & _). by eapply Inv_extends.
Qed.

(** ** The message of [assertIsDefined] names the key *)

Lemma length_append (a b : string) :
  String.length (a +:+ b) = String.length a + String.length b.
Proof.
  induction a as [|c a IH]; [done|].
  change (String c a +:+ b) with (String c (a +:+ b)). simpl. by rewrite IH.
Qed.

Lemma append_inj_l (a b q : string) : a +:+ q = b +:+ q → a = b.
Proof.
  revert b. induction a as [|c a IH]; intros [|c' b] Heq; [done| | |].
  - apply (f_equal String.length) in Heq.
    change (String c' b +:+ q) with (String c' (b +:+ q)) in Heq.
    change ("" +:+ q) with q in Heq. simpl in Heq. rewrite length_append in Heq. lia.
  - apply (f_equal String.length) in Heq.
    change (String c a +:+ q) with (String c (a +:+ q)) in Heq.
    change ("" +:+ q) with q in Heq. simpl in Heq. rewrite length_append in Heq. lia.
  - change (String c a +:+ q) with (String c (a +:+ q)) in Heq.
    change (String c' b +:+ q) with (String c' (b +:+ q)) in Heq.
    injection Heq as -> Heq. f_equal. by apply IH.
Qed.

Lemma not_assigned_inj k k' : not_assigned k = not_assigned k' → k = k'.
Proof.
  unfold not_assigned. intros Heq%(inj (String.app _)).
  by apply append_inj_l in Heq.
Qed.

(** ** What [getFormData] does *)

(** With a handle stored for every name, the payload has one entry per name,
    in the order of [fields]. *)
Lemma getFormData_all_assigned hk s :
  (∀ k, k ∈ fields hk → ∃ h, obj_get (handles hk s) k = VElem h) →
  getFormData hk s = (Ok (entry hk s <$> fields hk), s).
Proof.
  intros Hall. unfold getFormData. unfold bind at 1. rewrite every_assert_run.
  fold (handles hk s).
  destruct (fields hk) as [|k l] eqn:E; [done|]. rewrite <- E in *.
  destruct (Hall k) as [h ->]; [rewrite E; by left|].
  by rewrite reduce_append_ok.
Qed.

(** With no handle stored for the first name, the error names it. *)
Lemma getFormData_first_unassigned hk s k l :
  fields hk = k :: l → obj_get (handles hk s) k = VNull →
  getFormData hk s = (Throw (Error (not_assigned k)), s).
Proof.
  intros E Hk. unfold getFormData. unfold bind at 1. rewrite every_assert_run.
  fold (handles hk s). by rewrite E, Hk.
Qed.

(** With a handle stored for the first name but not for a later one, the
    check passes and reading [.value] of [null] throws. *)
Lemma getFormData_later_unassigned hk s k l h k' :
  reachable hk s →
  fields hk = k :: l → obj_get (handles hk s) k = VElem h →
  k' ∈ l → obj_get (handles hk s) k' = VNull →
  getFormData hk s = (Throw TypeError, s).
Proof.
  intros Hr%reachable_Inv E Hk Hin Hk'. unfold getFormData. unfold bind at 1.
  rewrite every_assert_run. fold (handles hk s). rewrite E, Hk, <- E.
  apply reduce_append_null; [apply Hr|].
  exists k'. split; [|done]. rewrite E. by right.
Qed.

(** ** The example form is reachable *)

Lemma demo_reachable : reachable demo_hook demo_state.
Proof. by apply (reach_mount demo_fields demo_start). Qed.

Lemma demo_fields_NoDup : NoDup demo_fields.
Proof. by apply (bool_decide_unpack _). Qed.

Lemma reachable_setRef hk s key ref :
  reachable hk s → reachable hk (setRef hk key ref s).2.
Proof. intros Hr. by apply (reach_call hk hk (SetRef key ref)). Qed.

Lemma demo_mounted_reachable : reachable demo_hook demo_mounted.
Proof. do 3 apply reachable_setRef. apply demo_reachable. Qed.

Example demo_payload :
  getFormData demo_hook demo_mounted
  = (Ok [("name", "Fire"); ("desc", "A deck"); ("select", "rouge")],
     demo_mounted).
Proof. reflexivity. Qed.

(** ** The registry's contract *)

(** C1 (as the code has it).  [getFormData] is meant to fail with the error
    of [assertIsDefined] naming the first field without a handle.  On the
    fields [a], [b] with a handle stored for [a] only, it does throw, but the
    exception is the [TypeError] of reading [null.value], not the error
    naming [b]: [fields.every] stopped after [a]. *)
Theorem getFormData_second_field_unassigned :
  ∃ hk s s1,
    useRefFields None ["a"; "b"] demo_start = (Ok hk, s)
    ∧ setRef hk "a" (Some 0) s = (Ok (), s1)
    ∧ obj_get (handles hk s1) "a" = VElem 0
    ∧ obj_get (handles hk s1) "b" = VNull
    ∧ getFormData hk s1 = (Throw TypeError, s1)
    ∧ getFormData hk s1 ≠ (Throw (Error (not_assigned "b")), s1).
Proof. do 3 eexists. split_and!; [reflexivity..|]. by compute. Qed.

(** C2.  Once the callback [setRef n] has run with an element [h], for a name
    [n] of [fields], [getRef n] returns the text [h] holds in the state in
    which [getRef] is called, whatever that text was at registration. *)
Theorem getRef_reads_through hk s n h :
  reachable hk s → n ∈ fields hk →
  ∃ s1, setRef hk n (Some h) s = (Ok (), s1)
        ∧ ∀ s2, handles hk s2 = handles hk s1 →
                getRef hk n s2 = (Ok (VStr (dom s2 h)), s2).
Proof.
  intros Hr%reachable_Inv Hn.
  destruct (setRef_run hk n (Some h) s) as (s1 & Hrun & _ & _ & Hh & _);
    [apply Hr|].
  exists s1. split; [done|]. intros s2 Hs2.
  rewrite getRef_run, Hs2, Hh.
  apply includes_elem_of in Hn as ->. by rewrite obj_get_set_eq.
Qed.

Lemma getRef_reads_through_witness :
  reachable demo_hook demo_state ∧ "name" ∈ fields demo_hook
  ∧ ∃ s1, setRef demo_hook "name" (Some 0) demo_state = (Ok (), s1)
          ∧ ∀ s2, handles demo_hook s2 = handles demo_hook s1 →
                  getRef demo_hook "name" s2 = (Ok (VStr (dom s2 0)), s2).
Proof.
  split; [apply demo_reachable|]. split; [by left|].
  apply getRef_reads_through; [apply demo_reachable | by left].
Defined.

(** C3.  For a name [n] of [fields] at which no element is stored, [getRef n]
    throws the error of [assertIsDefined], whose message determines [n]; in
    particular it does not return the empty string. *)
Theorem getRef_unassigned_throws hk s n :
  reachable hk s → n ∈ fields hk →
  (∀ h, obj_get (handles hk s) n ≠ VElem h) →
  getRef hk n s = (Throw (Error (not_assigned n)), s)
  ∧ (∀ n', not_assigned n' = not_assigned n → n' = n)
  ∧ (getRef hk n s).1 ≠ Ok (VStr "").
Proof.
  intros Hr%reachable_Inv Hn Hnone.
  assert (getRef hk n s = (Throw (Error (not_assigned n)), s)) as Hget.
  { rewrite getRef_run. destruct (inv_refs _ _ Hr n Hn) as [[h|] Href].
    - by destruct (Hnone h).
    - by rewrite Href. }
  split_and!; [done | intros n'; apply not_assigned_inj | by rewrite Hget].
Qed.

Lemma getRef_unassigned_throws_witness :
  reachable demo_hook demo_state ∧ "desc" ∈ fields demo_hook
  ∧ (∀ h, obj_get (handles demo_hook demo_state) "desc" ≠ VElem h)
  ∧ getRef demo_hook "desc" demo_state
    = (Throw (Error (not_assigned "desc")), demo_state)
  ∧ (∀ n', not_assigned n' = not_assigned "desc" → n' = "desc")
  ∧ (getRef demo_hook "desc" demo_state).1 ≠ Ok (VStr "").
Proof.
  split; [apply demo_reachable|]. split; [by right; left|].
  split; [by intros h|].
  apply getRef_unassigned_throws;
    [apply demo_reachable | by right; left | by intros h].
Defined.

(** What [getAllRef] returns on a state a closure can meet. *)
Lemma getAllRef_result hk s :
  Inv hk s →
  ∃ a s', getAllRef hk s = (Ok a, s')
          ∧ extends s s'
          ∧ (∀ k, k ∈ ownKeys (heap_get s' a) ↔ k ∈ fields hk)
          ∧ NoDup (ownKeys (heap_get s' a))
          ∧ ownKeys (heap_get s' a) = enum_order (keys (initial_obj (fields hk)))
          ∧ (∀ k, k ∈ fields hk →
                  obj_get (heap_get s' a) k
                  = value_opt (dom s) (obj_get (handles hk s) k))
          ∧ (∀ k, k ∉ fields hk → obj_get (heap_get s' a) k = VUndefined).
Proof.
  intros [Hc Hi Hk Hr HI].
  destruct (getAllRef_run hk s Hc Hi) as (a & s' & Hrun & Hext & _ & Hget).
  assert (keys (heap_get s (initialState hk)) = keys (initial_obj (fields hk)))
    as Hki.
  { destruct HI as [->|[_ ->]]; done. }
  assert (∀ k, k ∈ fields hk → k ∈ keys (heap_get s (initialState hk))) as Hold.
  { intros k. rewrite Hki. apply elem_of_keys_initial_obj. }
  assert (ownKeys (heap_get s' a) = enum_order (keys (initial_obj (fields hk))))
    as Hown.
  { rewrite Hget, ownKeys_build_old by done. unfold ownKeys. by rewrite Hki. }
  exists a, s'. split_and!; [done | done | | | done | |].
  - intros k. by rewrite Hown, elem_of_enum_order, elem_of_keys_initial_obj.
  - rewrite Hown, enum_order_perm. apply NoDup_keys_initial_obj.
  - intros k Hin. rewrite Hget. by apply obj_get_build.
  - intros k Hnin. rewrite Hget, obj_get_build_other by done.
    apply obj_get_not_key. by rewrite Hki, elem_of_keys_initial_obj.
Qed.

(** C4.  Right after the first render with a duplicate-free [l], [getAllRef]
    returns an object whose keys are the names of [l], each exactly once, and
    in which every name reads [undefined]. *)
Theorem getAllRef_after_mount l s0 :
  NoDup l →
  ∃ hk s a s',
    useRefFields None l s0 = (Ok hk, s) ∧ fields hk = l
    ∧ getAllRef hk s = (Ok a, s')
    ∧ ownKeys (heap_get s' a) ≡ₚ l
    ∧ ∀ k, obj_get (heap_get s' a) k = VUndefined.
Proof.
  intros Hnd.
  destruct (useRefFields_run None l s0) as (i & s & Hrun & _ & _ & Hget).
  pose proof (Inv_mount _ _ _ _ Hrun) as HI.
  destruct (getAllRef_result _ _ HI)
    as (a & s' & Hall & _ & _ & _ & Hown & Hin & Hout).
  eexists _, s, a, s'. split_and!; [done | done | done | |].
  - rewrite Hown. simpl.
    etrans; [apply enum_order_perm | by apply keys_initial_obj_perm].
  - intros k. destruct (decide (k ∈ l)) as [Hk|Hk]; [|by apply Hout].
    rewrite Hin by done. unfold handles. simpl.
    by rewrite Hget, obj_get_initial_obj.
Qed.

Lemma getAllRef_after_mount_witness :
  NoDup demo_fields
  ∧ ∃ hk s a s',
      useRefFields None demo_fields demo_start = (Ok hk, s)
      ∧ fields hk = demo_fields
      ∧ getAllRef hk s = (Ok a, s')
      ∧ ownKeys (heap_get s' a) ≡ₚ demo_fields
      ∧ ∀ k, obj_get (heap_get s' a) k = VUndefined.
Proof.
  split; [apply demo_fields_NoDup|].
  apply getAllRef_after_mount, demo_fields_NoDup.
Defined.

(** C5 (as stated, refuted).  With the fields [b], [1] the object returned
    by [getAllRef] enumerates [1] before [b]: array indices come first. *)
Lemma getAllRef_order_counterexample :
  ∃ hk s a s',
    reachable hk s ∧ NoDup (fields hk) ∧ fields hk = ["b"; "1"]
    ∧ getAllRef hk s = (Ok a, s')
    ∧ ownKeys (heap_get s' a) = ["1"; "b"]
    ∧ ownKeys (heap_get s' a) ≠ fields hk.
Proof.
  exists (mkHook ["b"; "1"] 2 2),
    (useRefFields None ["b"; "1"] demo_start).2.
  do 2 eexists. split_and!.
  - by apply (reach_mount ["b"; "1"] demo_start).
  - by apply (bool_decide_unpack _).
  - done.
  - reflexivity.
  - reflexivity.
  - by compute.
Qed.

(** C5 (amended).  On every reachable state [getAllRef] returns without
    throwing and leaves the handles as they were; the object it returns has
    exactly the names of [fields] as keys, each once; a name with an element
    stored reads that element's current text and a name without one reads
    [undefined].  For duplicate-free [fields] the keys are enumerated with the
    array-index names first, in ascending numeric order, followed by the
    other names in the order of [fields]; so in the order of [fields] when no
    name is an array index. *)
Theorem getAllRef_snapshot hk s :
  reachable hk s →
  ∃ a s',
    getAllRef hk s = (Ok a, s')
    ∧ handles hk s' = handles hk s
    ∧ (∀ k, k ∈ ownKeys (heap_get s' a) ↔ k ∈ fields hk)
    ∧ NoDup (ownKeys (heap_get s' a))
    ∧ (∀ k h, k ∈ fields hk → obj_get (handles hk s) k = VElem h →
              obj_get (heap_get s' a) k = VStr (dom s h))
    ∧ (∀ k, k ∈ fields hk → (∀ h, obj_get (handles hk s) k ≠ VElem h) →
            obj_get (heap_get s' a) k = VUndefined)
    ∧ (NoDup (fields hk) →
       ∃ idx,
         ownKeys (heap_get s' a)
         = (idx ++ filter (λ k, is_index k = false) (fields hk))%list
         ∧ idx ≡ₚ filter (λ k, is_index k = true) (fields hk)
         ∧ Sorted index_leq idx)
    ∧ (NoDup (fields hk) → (∀ k, k ∈ fields hk → is_index k = false) →
       ownKeys (heap_get s' a) = fields hk).
Proof.
  intros Hr%reachable_Inv.
  destruct (getAllRef_result _ _ Hr)
    as (a & s' & Hrun & Hext & Hkeys & Hnd & Hown & Hin & _).
  assert (NoDup (fields hk) →
          ∃ idx,
            ownKeys (heap_get s' a)
            = (idx ++ filter (λ k, is_index k = false) (fields hk))%list
            ∧ idx ≡ₚ filter (λ k, is_index k = true) (fields hk)
            ∧ Sorted index_leq idx) as Horder.
  { intros Hf. eexists. split_and!.
    - rewrite Hown. unfold enum_order.
      by rewrite filter_other_keys_initial_obj.
    - rewrite sort_keys_perm. by apply filter_Permutation, keys_initial_obj_perm.
    - apply sort_keys_sorted. }
  exists a, s'. split_and!; [done | | done | done | | | done |].
  - apply heap_get_extends; [done | apply Hr].
  - intros k h Hk Hh. by rewrite Hin, Hh.
  - intros k Hk Hnone. rewrite Hin by done.
    destruct (inv_refs _ _ Hr k Hk) as [[h|] Href]; [|by rewrite Href].
    by destruct (Hnone h).
  - intros Hf Hno. destruct (Horder Hf) as (idx & -> & Hperm & _).
    rewrite (filter_none (λ k, is_index k = true)) in Hperm.
    + apply Permutation_nil_r in Hperm as ->. simpl. by apply filter_all.
    + intros k Hk. by rewrite Hno.
Qed.

Lemma getAllRef_snapshot_witness :
  reachable demo_hook demo_mounted
  ∧ ∃ a s',
      getAllRef demo_hook demo_mounted = (Ok a, s')
      ∧ ownKeys (heap_get s' a) = fields demo_hook
      ∧ obj_get (heap_get s' a) "name" = VStr "Fire".
Proof.
  split; [apply demo_mounted_reachable|].
  destruct (getAllRef_snapshot demo_hook demo_mounted demo_mounted_reachable)
    as (a & s' & Hrun & _ & _ & _ & Hin & _ & _ & Hord).
  exists a, s'. split_and!; [done | |].
  - apply Hord; [apply demo_fields_NoDup|].
    intros k Hk. apply list_elem_of_In in Hk. simpl in Hk.
    by destruct Hk as [<-|[<-|[<-|[]]]].
  - by apply (Hin "name" 0); [left|].
Defined.

(** C6.  For a name outside [fields] the callback [setRef key] returns
    without throwing and leaves the whole state as it was, and the name is
    not a key of what [getAllRef] then returns. *)
Theorem setRef_unknown_name hk s key ref :
  reachable hk s → key ∉ fields hk →
  setRef hk key ref s = (Ok (), s)
  ∧ ∃ a s', getAllRef hk s = (Ok a, s') ∧ (key ∉ ownKeys (heap_get s' a)).
Proof.
  intros Hr%reachable_Inv Hkey. split.
  - unfold setRef. destruct (includes (fields hk) key) eqn:E; [|done].
    by apply includes_elem_of in E.
  - destruct (getAllRef_result _ _ Hr) as (a & s' & Hrun & _ & Hkeys & _).
    exists a, s'. split; [done|]. by rewrite Hkeys.
Qed.

Lemma setRef_unknown_name_witness :
  reachable demo_hook demo_state ∧ ("email" ∉ fields demo_hook)
  ∧ setRef demo_hook "email" (Some 7) demo_state = (Ok (), demo_state)
  ∧ ∃ a s', getAllRef demo_hook demo_state = (Ok a, s')
            ∧ ("email" ∉ ownKeys (heap_get s' a)).
Proof.
  assert ("email" ∉ fields demo_hook) as Hout.
  { intros Hk. apply list_elem_of_In in Hk. simpl in Hk.
    by destruct Hk as [?|[?|[?|[]]]]. }
  split; [apply demo_reachable|]. split; [done|].
  by apply setRef_unknown_name; [apply demo_reachable|].
Defined.

Lemma Inv_exact_keys hk s : Inv hk s → exact_keys hk s.
Proof.
  intros [_ _ Hk _ _]. split; rewrite Hk.
  - apply NoDup_keys_initial_obj.
  - intros k. apply elem_of_keys_initial_obj.
Qed.

(** C7.  On every reachable state, hence from the first render on and after
    any sequence of calls, the keys of the handles mapping are exactly the
    names of [fields]; and every call ([setRef] with an element or with
    [null], under any name, [getRef], [getAllRef], [getFormData]) leaves it
    so, whether it returns or throws. *)
Theorem handles_keys_invariant hk s :
  reachable hk s →
  exact_keys hk s ∧ ∀ c, exact_keys hk (perform hk c s).
Proof.
  intros Hr. split.
  - by apply Inv_exact_keys, reachable_Inv.
  - intros c. apply Inv_exact_keys, reachable_Inv. by apply reach_call.
Qed.

Lemma handles_keys_invariant_witness :
  reachable demo_hook demo_mounted
  ∧ exact_keys demo_hook demo_mounted
  ∧ ∀ c, exact_keys demo_hook (perform demo_hook c demo_mounted).
Proof.
  split; [apply demo_mounted_reachable|].
  apply handles_keys_invariant, demo_mounted_reachable.
Defined.

(** C8.  For a name [n] of [fields]: after the callback [setRef n] has run
    with an element (so that [getRef n] returns), running it with [null]
    makes [getRef n] throw the error naming [n]. *)
Theorem setRef_null_clears hk s n h :
  reachable hk s → n ∈ fields hk →
  ∃ s1 s2,
    setRef hk n (Some h) s = (Ok (), s1)
    ∧ getRef hk n s1 = (Ok (VStr (dom s1 h)), s1)
    ∧ setRef hk n None s1 = (Ok (), s2)
    ∧ obj_get (handles hk s2) n = VNull
    ∧ getRef hk n s2 = (Throw (Error (not_assigned n)), s2).
Proof.
  intros Hr Hn. pose proof (reachable_Inv _ _ Hr) as HI.
  destruct (setRef_run hk n (Some h) s) as (s1 & Hrun1 & _ & _ & Hh1 & _);
    [apply HI|].
  assert (Inv hk s1) as HI1.
  { replace s1 with (setRef hk n (Some h) s).2 by by rewrite Hrun1.
    by apply Inv_setRef. }
  destruct (setRef_run hk n None s1) as (s2 & Hrun2 & _ & _ & Hh2 & _);
    [apply HI1|].
  apply includes_elem_of in Hn. rewrite Hn in Hh1, Hh2.
  exists s1, s2. split_and!; [done | | done | |].
  - by rewrite getRef_run, Hh1, obj_get_set_eq.
  - by rewrite Hh2, obj_get_set_eq.
  - by rewrite getRef_run, Hh2, obj_get_set_eq.
Qed.

Lemma setRef_null_clears_witness :
  reachable demo_hook demo_state ∧ "desc" ∈ fields demo_hook
  ∧ ∃ s1 s2,
      setRef demo_hook "desc" (Some 1) demo_state = (Ok (), s1)
      ∧ getRef demo_hook "desc" s1 = (Ok (VStr (dom s1 1)), s1)
      ∧ setRef demo_hook "desc" None s1 = (Ok (), s2)
      ∧ obj_get (handles demo_hook s2) "desc" = VNull
      ∧ getRef demo_hook "desc" s2
        = (Throw (Error (not_assigned "desc")), s2).
Proof.
  split; [apply demo_reachable|]. split; [by right; left|].
  apply setRef_null_clears; [apply demo_reachable | by right; left].
Defined.

Lemma setRef_known hk s n ref :
  n ∈ fields hk →
  setRef hk n ref s
  = (Ok (),
     mkState (<[current hk := obj_set (handles hk s) n (of_ref ref)]> (heap s))
       (dom s)).
Proof. intros Hn%includes_elem_of. unfold setRef. by rewrite Hn. Qed.

(** C9.  For a name [n] of [fields], running the callback [setRef n] with
    [h1] and then with [h2] leaves exactly the state that running it with
    [h2] alone leaves, so no action can tell that [h1] was ever stored at
    [n]; [getRef n] returns the text of [h2], and [h1], when another element,
    is not what [n] holds. *)
Theorem last_registration_wins hk s n h1 h2 :
  reachable hk s → n ∈ fields hk →
  ∃ s1 s2,
    setRef hk n (Some h1) s = (Ok (), s1)
    ∧ setRef hk n (Some h2) s1 = (Ok (), s2)
    ∧ getRef hk n s2 = (Ok (VStr (dom s2 h2)), s2)
    ∧ setRef hk n (Some h2) s = (Ok (), s2)
    ∧ (h1 ≠ h2 → obj_get (handles hk s2) n ≠ VElem h1).
Proof.
  intros Hr%reachable_Inv Hn. pose proof (inv_current _ _ Hr) as Hc.
  assert (∀ o, handles hk
            (mkState (<[current hk := o]> (heap s)) (dom s)) = o)
    as Hget.
  { intros o. unfold handles, heap_get. simpl. by rewrite list_lookup_insert_eq. }
  exists
    (mkState (<[current hk := obj_set (handles hk s) n (VElem h1)]> (heap s))
       (dom s)),
    (mkState (<[current hk := obj_set (handles hk s) n (VElem h2)]> (heap s))
       (dom s)).
  split_and!.
  - by apply setRef_known.
  - rewrite setRef_known, Hget by done. simpl.
    by rewrite list_insert_insert_eq, obj_set_set.
  - by rewrite getRef_run, Hget, obj_get_set_eq.
  - by apply setRef_known.
  - intros Hne. rewrite Hget, obj_get_set_eq. congruence.
Qed.

Lemma last_registration_wins_witness :
  reachable demo_hook demo_state ∧ "select" ∈ fields demo_hook
  ∧ ∃ s1 s2,
      setRef demo_hook "select" (Some 1) demo_state = (Ok (), s1)
      ∧ setRef demo_hook "select" (Some 2) s1 = (Ok (), s2)
      ∧ getRef demo_hook "select" s2 = (Ok (VStr (dom s2 2)), s2)
      ∧ setRef demo_hook "select" (Some 2) demo_state = (Ok (), s2)
      ∧ (1 ≠ 2 → obj_get (handles demo_hook s2) "select" ≠ VElem 1).
Proof.
  split; [apply demo_reachable|]. split; [by right; right; left|].
  apply last_registration_wins; [apply demo_reachable | by right; right; left].
Defined.

(** C10.  A call of [getRef], [getAllRef] or [getFormData], whether it
    returns or throws, leaves the handles mapping, every object that existed
    and the text of every element as they were; the state only gains the
    objects the call allocated. *)
Theorem accessors_preserve_handles hk s c :
  reachable hk s → reads c = true →
  handles hk (perform hk c s) = handles hk s
  ∧ extends s (perform hk c s).
Proof.
  intros Hr%reachable_Inv Hc.
  assert (extends s (perform hk c s)) as Hext.
  { destruct c as [key ref|key| |]; [done| | |]; unfold perform.
    - rewrite getRef_run. apply extends_refl.
    - by destruct (getAllRef_run hk s) as (a & s' & -> & Hext & _);
        [apply Hr..|].
    - rewrite getFormData_state. apply extends_refl. }
  split; [|done]. apply heap_get_extends; [done | apply Hr].
Qed.

Lemma accessors_preserve_handles_witness :
  reachable demo_hook demo_state ∧ reads GetFormData = true
  ∧ handles demo_hook (perform demo_hook GetFormData demo_state)
    = handles demo_hook demo_state
  ∧ extends demo_state (perform demo_hook GetFormData demo_state).
Proof.
  split; [apply demo_reachable|]. split; [reflexivity|].
  apply accessors_preserve_handles; [apply demo_reachable | reflexivity].
Defined.

(** ** More about the actions *)

Lemma demo_fields_cases k :
  k ∈ demo_fields → k = "name" ∨ k = "desc" ∨ k = "select".
Proof.
  intros Hk. apply list_elem_of_In in Hk. simpl in Hk.
  destruct Hk as [<-|[<-|[<-|[]]]]; auto.
Qed.

Lemma demo_mounted_handles k :
  k ∈ fields demo_hook →
  obj_get (handles demo_hook demo_mounted) k = VElem (demo_handle k).
Proof. by intros [->|[->| ->]]%demo_fields_cases. Qed.

Lemma demo_again_reachable : reachable demo_hook_again demo_rendered_again.
Proof.
  by apply (reach_render demo_hook demo_mounted);
    [apply demo_mounted_reachable|].
Qed.

Lemma demo_old_reachable : reachable demo_hook demo_rendered_again.
Proof.
  by apply (reach_render_old demo_hook demo_mounted demo_hook_again);
    [apply demo_mounted_reachable|].
Qed.

Lemma fmap_entry_assigned hk s (hof : string → handle) (l : list string) :
  (∀ k, k ∈ l → obj_get (handles hk s) k = VElem (hof k)) →
  entry hk s <$> l = (λ k, (k, dom s (hof k))) <$> l.
Proof.
  induction l as [|k l IH]; intros Hall; [done|].
  cbn [fmap list_fmap]. f_equal.
  - unfold entry. rewrite Hall by left. done.
  - apply IH. intros k' Hk'. apply Hall. by right.
Qed.

(** If [getFormData] returns, every field had an element. *)
Lemma getFormData_ok_inv hk s p s' :
  Inv hk s → getFormData hk s = (Ok p, s') →
  s' = s ∧ p = entry hk s <$> fields hk
  ∧ ∀ k, k ∈ fields hk → ∃ h, obj_get (handles hk s) k = VElem h.
Proof.
  intros HI Hrun.
  assert (∀ k, k ∈ fields hk → ∃ h, obj_get (handles hk s) k = VElem h) as Hall.
  { intros k Hk. destruct (inv_refs _ _ HI k Hk) as [[h|] Hh]; [by exists h|].
    exfalso. simpl in Hh.
    destruct (fields hk) as [|k0 l] eqn:E; [by apply elem_of_nil in Hk|].
    destruct (inv_refs _ _ HI k0) as [[h0|] Hh0]; [rewrite E; by left| |].
    - apply elem_of_cons in Hk as [->|Hk]; [simpl in Hh0; congruence|].
      assert (getFormData hk s = (Throw TypeError, s)) as Hthrow; [|congruence].
      unfold getFormData. unfold bind at 1. rewrite every_assert_run.
      fold (handles hk s). rewrite E, Hh0, <- E. simpl.
      apply reduce_append_null; [apply HI|].
      exists k. split; [rewrite E; by right | done].
    - rewrite (getFormData_first_unassigned hk s k0 l E Hh0) in Hrun.
      congruence. }
  rewrite getFormData_all_assigned in Hrun by done.
  injection Hrun as <- <-. done.
Qed.

(** X1.  When every field holds an element, [getFormData] returns, without
    changing the state, one entry per name of [fields], in the order of
    [fields] (a name listed twice gives two entries), each with the text its
    element holds at the time of the call. *)
Theorem getFormData_payload hk s (hof : string → handle) :
  (∀ k, k ∈ fields hk → obj_get (handles hk s) k = VElem (hof k)) →
  getFormData hk s = (Ok ((λ k, (k, dom s (hof k))) <$> fields hk), s).
Proof.
  intros Hall. rewrite getFormData_all_assigned.
  - by rewrite (fmap_entry_assigned hk s hof).
  - intros k Hk. exists (hof k). by apply Hall.
Qed.

Lemma getFormData_payload_witness :
  (∀ k, k ∈ fields demo_hook →
        obj_get (handles demo_hook demo_mounted) k = VElem (demo_handle k))
  ∧ getFormData demo_hook demo_mounted
    = (Ok ((λ k, (k, dom demo_mounted (demo_handle k))) <$> fields demo_hook),
       demo_mounted).
Proof.
  split; [apply demo_mounted_handles|].
  apply getFormData_payload, demo_mounted_handles.
Defined.

(** X2.  On a reachable state, if [getFormData] returns a payload then the
    state is unchanged, the names of the payload are exactly [fields], in
    order, and every field holds an element whose current text is its entry:
    no payload is ever returned with a field missing. *)
Theorem getFormData_all_or_nothing hk s p s' :
  reachable hk s → getFormData hk s = (Ok p, s') →
  s' = s ∧ p.*1 = fields hk
  ∧ ∀ k, k ∈ fields hk →
         ∃ h, obj_get (handles hk s) k = VElem h ∧ (k, dom s h) ∈ p.
Proof.
  intros Hr%reachable_Inv Hrun.
  destruct (getFormData_ok_inv _ _ _ _ Hr Hrun) as (-> & -> & Hall).
  split_and!; [done| |].
  - rewrite <- list_fmap_compose. apply list_fmap_id.
  - intros k Hk. destruct (Hall k Hk) as [h Hh]. exists h. split; [done|].
    apply list_elem_of_fmap. exists k. split; [|done].
    unfold entry. by rewrite Hh.
Qed.

Lemma getFormData_all_or_nothing_witness :
  reachable demo_hook demo_mounted
  ∧ getFormData demo_hook demo_mounted
    = (Ok [("name", "Fire"); ("desc", "A deck"); ("select", "rouge")],
       demo_mounted)
  ∧ demo_mounted = demo_mounted
  ∧ [("name", "Fire"); ("desc", "A deck"); ("select", "rouge")].*1
    = fields demo_hook
  ∧ ∀ k, k ∈ fields demo_hook →
         ∃ h, obj_get (handles demo_hook demo_mounted) k = VElem h
              ∧ (k, dom demo_mounted h)
                ∈ [("name", "Fire"); ("desc", "A deck"); ("select", "rouge")].
Proof.
  split; [apply demo_mounted_reachable|]. split; [reflexivity|].
  apply getFormData_all_or_nothing;
    [apply demo_mounted_reachable | reflexivity].
Defined.

(** X3.  When the first name of [fields] holds no element, [getFormData]
    throws the error of [assertIsDefined] naming that first name, whatever
    the other fields hold, and leaves the state unchanged. *)
Theorem getFormData_names_first_field hk s k l :
  reachable hk s → fields hk = k :: l →
  (∀ h, obj_get (handles hk s) k ≠ VElem h) →
  getFormData hk s = (Throw (Error (not_assigned k)), s).
Proof.
  intros Hr%reachable_Inv E Hnone.
  apply (getFormData_first_unassigned hk s k l E).
  destruct (inv_refs _ _ Hr k) as [[h|] Hh]; [rewrite E; by left| |done].
  by destruct (Hnone h).
Qed.

Lemma getFormData_names_first_field_witness :
  reachable demo_hook demo_state
  ∧ fields demo_hook = "name" :: ["desc"; "select"]
  ∧ (∀ h, obj_get (handles demo_hook demo_state) "name" ≠ VElem h)
  ∧ getFormData demo_hook demo_state
    = (Throw (Error (not_assigned "name")), demo_state).
Proof.
  split; [apply demo_reachable|]. split; [reflexivity|].
  split; [by intros h|].
  by apply (getFormData_names_first_field demo_hook demo_state "name"
              ["desc"; "select"]); [apply demo_reachable | |intros h].
Defined.

(** X4.  When the first name of [fields] holds an element and some later
    name holds none, [getFormData] throws the [TypeError] of reading
    [.value] of [null], which names no field; the state is unchanged. *)
Theorem getFormData_type_error hk s k l h k' :
  reachable hk s → fields hk = k :: l →
  obj_get (handles hk s) k = VElem h →
  k' ∈ l → (∀ h', obj_get (handles hk s) k' ≠ VElem h') →
  getFormData hk s = (Throw TypeError, s).
Proof.
  intros Hr E Hk Hin Hnone.
  apply (getFormData_later_unassigned hk s k l h k'); [done..|].
  destruct (inv_refs _ _ (reachable_Inv _ _ Hr) k') as [[h'|] Hh'];
    [rewrite E; by right| |done].
  by destruct (Hnone h').
Qed.

Lemma getFormData_type_error_witness :
  reachable demo_hook (setRef demo_hook "name" (Some 0) demo_state).2
  ∧ getFormData demo_hook (setRef demo_hook "name" (Some 0) demo_state).2
    = (Throw TypeError, (setRef demo_hook "name" (Some 0) demo_state).2).
Proof.
  split; [apply reachable_setRef, demo_reachable|].
  apply (getFormData_type_error demo_hook _ "name" ["desc"; "select"] 0
           "select").
  - apply reachable_setRef, demo_reachable.
  - reflexivity.
  - reflexivity.
  - by right; left.
  - by intros h'.
Defined.

(** X5.  Right after the first render, whatever [fields] is, no field holds
    an element: [getRef] throws the error naming its field for every name of
    [fields], and [getFormData] throws the error naming the first name, or
    returns an empty payload when [fields] is empty. *)
Theorem strict_accessors_before_mount l s0 :
  ∃ hk s,
    useRefFields None l s0 = (Ok hk, s) ∧ fields hk = l
    ∧ (∀ n, n ∈ l → getRef hk n s = (Throw (Error (not_assigned n)), s))
    ∧ (∀ k l', l = k :: l' →
               getFormData hk s = (Throw (Error (not_assigned k)), s))
    ∧ (l = [] → getFormData hk s = (Ok [], s)).
Proof.
  destruct (useRefFields_run None l s0) as (a & s & Hrun & _ & _ & Hget).
  eexists _, s. split_and!; [done | done | | |].
  - intros n Hn. rewrite getRef_run. unfold handles. simpl.
    by rewrite Hget, obj_get_initial_obj.
  - intros k l' ->. apply (getFormData_first_unassigned _ _ k l'); [done|].
    unfold handles. simpl. rewrite Hget. apply obj_get_initial_obj. by left.
  - by intros ->.
Qed.

Lemma getAllRef_callback hk s s' obj key :
  extends s s' → current hk < length (heap s) →
  (let! v := get_prop (current hk) key in
   let! x := read_value_opt v in
   spread_with obj key x) s'
  = spread_with obj key (value_opt (dom s) (obj_get (handles hk s) key)) s'.
Proof.
  intros Hext Hc. unfold bind, get_prop, handles.
  rewrite (heap_get_extends s s') by done. destruct Hext as [Hd _].
  destruct (obj_get (heap_get s (current hk)) key); simpl; by rewrite ?Hd.
Qed.

(** [reduce] over literals allocates one object per element and ends on the
    last one allocated. *)
Lemma reduce_spread_fresh (cb : addr → string → M addr) f s0 l :
  (∀ obj key s', extends s0 s' → cb obj key s' = spread_with obj key (f key) s') →
  ∀ a s a' s', extends s0 s → reduce cb l a s = (Ok a', s') →
  length (heap s') = length (heap s) + length l
  ∧ (l = [] → a' = a ∧ s' = s)
  ∧ (l ≠ [] → S a' = length (heap s')).
Proof.
  intros Hcb. induction l as [|k l IH]; intros a s a' s' Hext Hrun.
  - injection Hrun as <- <-. split_and!; [simpl; lia | done | done].
  - simpl in Hrun. unfold bind in Hrun. rewrite Hcb in Hrun by done.
    unfold spread_with in Hrun.
    destruct (alloc_run (obj_set (spread (heap_get s a)) k (f k)) s)
      as (s1 & Hal & Hext1 & _ & Hlen1).
    rewrite Hal in Hrun.
    destruct (IH _ _ _ _ (extends_trans _ _ _ Hext Hext1) Hrun)
      as (Hlen & Hnil & Hcons).
    split_and!; [simpl; lia | done |]. intros _.
    destruct l as [|k' l]; [|by apply Hcons].
    destruct Hnil as [-> ->]; [done|]. lia.
Qed.

(** X6.  On a reachable state a call of [getAllRef] allocates exactly one
    object per name of [fields].  With at least one name, what it returns is
    the last of them, a new object, so never the handles object; with no
    name it allocates nothing and returns the object [initialState] itself
    (on the first render, the handles object). *)
Theorem getAllRef_allocation hk s :
  reachable hk s →
  ∃ a s',
    getAllRef hk s = (Ok a, s')
    ∧ length (heap s') = length (heap s) + length (fields hk)
    ∧ (fields hk = [] → a = initialState hk ∧ s' = s)
    ∧ (fields hk ≠ [] →
       length (heap s) ≤ a ∧ S a = length (heap s') ∧ a ≠ current hk).
Proof.
  intros Hr%reachable_Inv.
  destruct (getAllRef_run hk s) as (a & s' & Hrun & _); [apply Hr..|].
  destruct (reduce_spread_fresh
              (λ obj key,
                 let! v := get_prop (current hk) key in
                 let! x := read_value_opt v in
                 spread_with obj key x)
              (λ k, value_opt (dom s) (obj_get (handles hk s) k)) s (fields hk))
    with (a := initialState hk) (s := s) (a' := a) (s' := s')
    as (Hlen & Hnil & Hcons); [|apply extends_refl|done|].
  { intros obj key s1 Hext. apply getAllRef_callback; [done | apply Hr]. }
  exists a, s'. split_and!; [done..|].
  intros Hne. specialize (Hcons Hne). pose proof (inv_current _ _ Hr).
  assert (0 < length (fields hk)) by (destruct (fields hk); [done | simpl; lia]).
  lia.
Qed.

Lemma getAllRef_allocation_witness :
  reachable demo_hook demo_mounted
  ∧ ∃ a s',
      getAllRef demo_hook demo_mounted = (Ok a, s')
      ∧ length (heap s') = length (heap demo_mounted) + length (fields demo_hook)
      ∧ (fields demo_hook = [] → a = initialState demo_hook ∧ s' = demo_mounted)
      ∧ (fields demo_hook ≠ [] →
         length (heap demo_mounted) ≤ a ∧ S a = length (heap s')
         ∧ a ≠ current demo_hook).
Proof.
  split; [apply demo_mounted_reachable|].
  apply getAllRef_allocation, demo_mounted_reachable.
Defined.

(** X7.  On a reachable state the callback [setRef key], run with an element
    or with [null], returns without throwing; it leaves the text of every
    element, every other object and what every other name holds as they
    were, so [getRef] of any other name gives what it gave before. *)
Theorem setRef_frame hk s key ref :
  reachable hk s →
  ∃ s',
    setRef hk key ref s = (Ok (), s')
    ∧ dom s' = dom s
    ∧ (∀ a, a ≠ current hk → heap_get s' a = heap_get s a)
    ∧ ∀ k, k ≠ key →
           obj_get (handles hk s') k = obj_get (handles hk s) k
           ∧ (getRef hk k s').1 = (getRef hk k s).1.
Proof.
  intros Hr%reachable_Inv.
  destruct (setRef_run hk key ref s) as (s' & Hrun & Hd & _ & Hh & Hother);
    [apply Hr|].
  exists s'. split_and!; [done..|]. intros k Hne.
  assert (obj_get (handles hk s') k = obj_get (handles hk s) k) as Hk.
  { rewrite Hh. destruct (includes (fields hk) key); [|done].
    by apply obj_get_set_ne. }
  split; [done|]. by rewrite !getRef_run, Hk, Hd.
Qed.

Lemma setRef_frame_witness :
  reachable demo_hook demo_mounted
  ∧ ∃ s',
      setRef demo_hook "desc" None demo_mounted = (Ok (), s')
      ∧ dom s' = dom demo_mounted
      ∧ (∀ a, a ≠ current demo_hook → heap_get s' a = heap_get demo_mounted a)
      ∧ ∀ k, k ≠ "desc" →
             obj_get (handles demo_hook s') k
             = obj_get (handles demo_hook demo_mounted) k
             ∧ (getRef demo_hook k s').1 = (getRef demo_hook k demo_mounted).1.
Proof.
  split; [apply demo_mounted_reachable|].
  apply setRef_frame, demo_mounted_reachable.
Defined.

Lemma obj_set_comm (o : Obj) k1 v1 k2 v2 :
  k1 ≠ k2 → k1 ∈ keys o → k2 ∈ keys o →
  obj_set (obj_set o k1 v1) k2 v2 = obj_set (obj_set o k2 v2) k1 v1.
Proof.
  intros Hne. induction o as [|[k v] o IH]; simpl.
  - by intros ?%elem_of_nil.
  - rewrite !elem_of_cons. intros H1 H2.
    destruct (String.eqb k1 k) eqn:E1; destruct (String.eqb k2 k) eqn:E2;
      simpl; rewrite ?E1, ?E2; try done.
    + apply eqb_true in E1, E2. congruence.
    + apply eqb_false in E1, E2. f_equal. apply IH; tauto.
Qed.

Lemma handles_insert hk s o :
  current hk < length (heap s) →
  handles hk (mkState (<[current hk := o]> (heap s)) (dom s)) = o.
Proof.
  intros Hc. unfold handles, heap_get. simpl. by rewrite list_lookup_insert_eq.
Qed.

(** X8.  On a reachable state, running the callbacks of two different names
    of [fields] in one order or the other leaves the same state: the order
    in which the fields mount or unmount does not matter. *)
Theorem setRef_commute hk s n1 r1 n2 r2 :
  reachable hk s → n1 ∈ fields hk → n2 ∈ fields hk → n1 ≠ n2 →
  ∃ s1 s2 s12,
    setRef hk n1 r1 s = (Ok (), s1) ∧ setRef hk n2 r2 s1 = (Ok (), s12)
    ∧ setRef hk n2 r2 s = (Ok (), s2) ∧ setRef hk n1 r1 s2 = (Ok (), s12).
Proof.
  intros Hr%reachable_Inv H1 H2 Hne. pose proof (inv_current _ _ Hr) as Hc.
  eexists _, _, _. split; [by apply setRef_known|].
  split; [by apply setRef_known|]. split; [by apply setRef_known|].
  rewrite setRef_known by done. rewrite !handles_insert by done. simpl.
  rewrite !list_insert_insert_eq. do 3 f_equal.
  apply obj_set_comm; [done|..].
  - by rewrite (inv_keys _ _ Hr), elem_of_keys_initial_obj.
  - by rewrite (inv_keys _ _ Hr), elem_of_keys_initial_obj.
Qed.

Lemma setRef_commute_witness :
  reachable demo_hook demo_state
  ∧ "name" ∈ fields demo_hook ∧ "select" ∈ fields demo_hook
  ∧ "name" ≠ "select"
  ∧ ∃ s1 s2 s12,
      setRef demo_hook "name" (Some 0) demo_state = (Ok (), s1)
      ∧ setRef demo_hook "select" (Some 2) s1 = (Ok (), s12)
      ∧ setRef demo_hook "select" (Some 2) demo_state = (Ok (), s2)
      ∧ setRef demo_hook "name" (Some 0) s2 = (Ok (), s12).
Proof.
  split; [apply demo_reachable|]. split; [by left|].
  split; [by right; right; left|]. split; [done|].
  apply setRef_commute;
    [apply demo_reachable | by left | by right; right; left | done].
Defined.

(** X9.  A later render of the component gives closures over the same
    [fields] and the same handles object, with what every name holds
    untouched, so [getRef] of the new closure gives what [getRef] of the old
    one gave; only [initialState] is rebuilt, as a new object in which every
    name of [fields] is [null]. *)
Theorem rerender_keeps_handles hk s :
  reachable hk s →
  ∃ hk' s',
    useRefFields (Some (current hk)) (fields hk) s = (Ok hk', s')
    ∧ fields hk' = fields hk ∧ current hk' = current hk
    ∧ handles hk' s' = handles hk s
    ∧ initialState hk' ≠ current hk'
    ∧ (∀ k, k ∈ fields hk → obj_get (heap_get s' (initialState hk')) k = VNull)
    ∧ ∀ n, (getRef hk' n s').1 = (getRef hk n s).1.
Proof.
  intros Hr%reachable_Inv.
  destruct (useRefFields_run (Some (current hk)) (fields hk) s)
    as (a & s' & Hrun & Hext & Ha & Hget).
  pose proof (inv_current _ _ Hr) as Hc.
  assert (handles hk s' = handles hk s) as Hh by by apply heap_get_extends.
  eexists _, s'. split; [done|]. simpl.
  split_and!; [done | done | done | lia | |].
  - intros k Hk. by rewrite Hget, obj_get_initial_obj.
  - intros n. rewrite !getRef_run. unfold handles in *. simpl.
    destruct Hext as [Hd _]. by rewrite Hh, Hd.
Qed.

Lemma rerender_keeps_handles_witness :
  reachable demo_hook demo_mounted
  ∧ ∃ hk' s',
      useRefFields (Some (current demo_hook)) (fields demo_hook) demo_mounted
      = (Ok hk', s')
      ∧ fields hk' = fields demo_hook ∧ current hk' = current demo_hook
      ∧ handles hk' s' = handles demo_hook demo_mounted
      ∧ initialState hk' ≠ current hk'
      ∧ (∀ k, k ∈ fields demo_hook →
              obj_get (heap_get s' (initialState hk')) k = VNull)
      ∧ ∀ n, (getRef hk' n s').1 = (getRef demo_hook n demo_mounted).1.
Proof.
  split; [apply demo_mounted_reachable|].
  apply rerender_keeps_handles, demo_mounted_reachable.
Defined.

Lemma obj_ext (o1 o2 : Obj) :
  keys o1 = keys o2 → NoDup (keys o1) →
  (∀ k, obj_get o1 k = obj_get o2 k) → o1 = o2.
Proof.
  revert o2. induction o1 as [|[k v] o1 IH]; intros [|[k' v'] o2]; simpl;
    try done.
  intros [= <- Hk] [Hnin Hnd]%NoDup_cons Hget. f_equal.
  - f_equal. specialize (Hget k). by rewrite String.eqb_refl in Hget.
  - apply IH; [done..|]. intros k0. destruct (decide (k0 = k)) as [->|Hne].
    + rewrite !obj_get_not_key; [done | by rewrite <- Hk | done].
    + specialize (Hget k0). apply eqb_false in Hne. by rewrite Hne in Hget.
Qed.

(** X10.  Two closures of one component, whether of the first render (whose
    [initialState] is the handles object itself) or of a later one (whose
    [initialState] holds [null] everywhere), get the same object from
    [getAllRef] on the same state: same properties, same order, same
    values. *)
Theorem getAllRef_closures_agree hk hk' s :
  reachable hk s → reachable hk' s →
  current hk' = current hk → fields hk' = fields hk →
  ∃ a s1 a' s1',
    getAllRef hk s = (Ok a, s1) ∧ getAllRef hk' s = (Ok a', s1')
    ∧ heap_get s1 a = heap_get s1' a'.
Proof.
  intros Hr%reachable_Inv Hr'%reachable_Inv Hcur Hfld.
  destruct (getAllRef_run hk s) as (a & s1 & Hrun & _ & _ & Hget);
    [apply Hr..|].
  destruct (getAllRef_run hk' s) as (a' & s1' & Hrun' & _ & _ & Hget');
    [apply Hr'..|].
  exists a, s1, a', s1'. split_and!; [done..|].
  assert (∀ h, Inv h s →
            keys (heap_get s (initialState h)) = keys (initial_obj (fields h)))
    as Hinit.
  { intros h [_ _ Hk _ [->|[_ ->]]]; done. }
  assert (handles hk' s = handles hk s) as Hh by (unfold handles; by rewrite Hcur).
  rewrite Hget, Hget', Hfld, Hh.
  set (f := λ k, value_opt (dom s) (obj_get (handles hk s) k)).
  assert (∀ h, Inv h s → fields h = fields hk →
            ∀ k, k ∈ fields hk → k ∈ keys (heap_get s (initialState h)))
    as Hold.
  { intros h Hi Hf k Hk. rewrite Hinit, Hf by done.
    by apply elem_of_keys_initial_obj. }
  apply obj_ext.
  - rewrite !keys_build_old by eauto. rewrite !Hinit, Hfld by done. done.
  - apply NoDup_keys_build. rewrite Hinit by done.
    apply NoDup_keys_initial_obj.
  - intros k. destruct (decide (k ∈ fields hk)) as [Hk|Hk].
    + by rewrite !obj_get_build.
    + rewrite !obj_get_build_other by done.
      rewrite !obj_get_not_key; [done|..].
      * by rewrite Hinit, Hfld, elem_of_keys_initial_obj.
      * by rewrite Hinit, elem_of_keys_initial_obj.
Qed.

Lemma getAllRef_closures_agree_witness :
  reachable demo_hook demo_rendered_again
  ∧ reachable demo_hook_again demo_rendered_again
  ∧ current demo_hook_again = current demo_hook
  ∧ fields demo_hook_again = fields demo_hook
  ∧ ∃ a s1 a' s1',
      getAllRef demo_hook demo_rendered_again = (Ok a, s1)
      ∧ getAllRef demo_hook_again demo_rendered_again = (Ok a', s1')
      ∧ heap_get s1 a = heap_get s1' a'.
Proof.
  split; [apply demo_old_reachable|]. split; [apply demo_again_reachable|].
  split; [reflexivity|]. split; [reflexivity|].
  apply getAllRef_closures_agree;
    [apply demo_old_reachable | apply demo_again_reachable | reflexivity..].
Defined.

(** X11.  On a reachable state, whatever [getFormData] returns for a name is
    what [getRef] returns for it and what the object returned by [getAllRef]
    holds for it. *)
Theorem getFormData_agrees hk s p s' :
  reachable hk s → getFormData hk s = (Ok p, s') →
  ∃ a s2,
    getAllRef hk s = (Ok a, s2)
    ∧ ∀ k v, (k, v) ∈ p →
             getRef hk k s = (Ok (VStr v), s)
             ∧ obj_get (heap_get s2 a) k = VStr v.
Proof.
  intros Hr%reachable_Inv Hrun.
  destruct (getFormData_ok_inv _ _ _ _ Hr Hrun) as (-> & -> & Hall).
  destruct (getAllRef_result _ _ Hr) as (a & s2 & Hall2 & _ & _ & _ & _ & Hin & _).
  exists a, s2. split; [done|]. intros k v Hkv.
  apply list_elem_of_fmap in Hkv as (k0 & [= -> ->] & Hk0).
  destruct (Hall k0 Hk0) as [h Hh]. split.
  - by rewrite getRef_run, Hh.
  - by rewrite Hin, Hh.
Qed.

Lemma getFormData_agrees_witness :
  reachable demo_hook demo_mounted
  ∧ ∃ a s2,
      getAllRef demo_hook demo_mounted = (Ok a, s2)
      ∧ ∀ k v,
          (k, v) ∈ [("name", "Fire"); ("desc", "A deck"); ("select", "rouge")] →
          getRef demo_hook k demo_mounted = (Ok (VStr v), demo_mounted)
          ∧ obj_get (heap_get s2 a) k = VStr v.
Proof.
  split; [apply demo_mounted_reachable|].
  apply (getFormData_agrees demo_hook demo_mounted _ demo_mounted);
    [apply demo_mounted_reachable | reflexivity].
Defined.

Lemma setRef_twice hk s n r1 r2 :
  current hk < length (heap s) →
  setRef hk n r2 (setRef hk n r1 s).2 = (Ok (), (setRef hk n r2 s).2).
Proof.
  intros Hc. unfold setRef. destruct (includes (fields hk) n) eqn:E; [|done].
  unfold set_prop. simpl. f_equal. f_equal.
  unfold heap_get. simpl. rewrite list_lookup_insert_eq by done. simpl.
  by rewrite list_insert_insert_eq, obj_set_set.
Qed.

Lemma setRef_length hk s n r :
  length (heap (setRef hk n r s).2) = length (heap s).
Proof.
  unfold setRef. destruct (includes (fields hk) n); [|done].
  simpl. apply length_insert.
Qed.

Lemma setRef_ok hk s n r : (setRef hk n r s).1 = Ok ().
Proof. unfold setRef. by destruct (includes (fields hk) n). Qed.

Lemma register_all_snoc hk name elems e s :
  current hk < length (heap s) →
  register_all hk name (elems ++ [e]) s
  = (Ok (), (setRef hk name (Some e) s).2).
Proof.
  revert s. induction elems as [|x elems IH]; intros s Hc; simpl; unfold bind.
  - pose proof (setRef_ok hk s name (Some e)) as Hok.
    destruct (setRef hk name (Some e) s) as [o s1]. simpl in Hok. by subst.
  - pose proof (setRef_ok hk s name (Some x)) as Hok.
    pose proof (setRef_twice hk s name (Some x) (Some e) Hc) as Htw.
    pose proof (setRef_length hk s name (Some x)) as Hlen.
    destruct (setRef hk name (Some x) s) as [o s1]. simpl in *. subst o.
    rewrite IH by lia. by rewrite Htw.
Qed.

(** X12.  When the callbacks [setRef name] of a group of elements run one
    after the other, as for the inputs of [MyInputRadio], the state they
    leave is the one the last of them alone leaves: for a name of [fields],
    [getRef name] returns the text of the last element of the group. *)
Theorem register_all_last hk s name elems e :
  reachable hk s → name ∈ fields hk →
  ∃ s',
    register_all hk name (elems ++ [e]) s = (Ok (), s')
    ∧ setRef hk name (Some e) s = (Ok (), s')
    ∧ getRef hk name s' = (Ok (VStr (dom s' e)), s').
Proof.
  intros Hr%reachable_Inv Hn. pose proof (inv_current _ _ Hr) as Hc.
  exists (setRef hk name (Some e) s).2. split_and!.
  - by apply register_all_snoc.
  - by rewrite setRef_known.
  - rewrite getRef_run, setRef_known by done. simpl.
    by rewrite handles_insert, obj_get_set_eq.
Qed.

Lemma register_all_last_witness :
  reachable demo_hook demo_state ∧ "select" ∈ fields demo_hook
  ∧ ∃ s',
      register_all demo_hook "select" ([0; 1] ++ [2]) demo_state = (Ok (), s')
      ∧ setRef demo_hook "select" (Some 2) demo_state = (Ok (), s')
      ∧ getRef demo_hook "select" s' = (Ok (VStr (dom s' 2)), s').
Proof.
  split; [apply demo_reachable|]. split; [by right; right; left|].
  apply register_all_last; [apply demo_reachable | by right; right; left].
Defined.
